(** * pg-migrations: a shallow embedding of [migrations.go]

    The development follows the Go file top to bottom: the record types, the
    file-name reader [GetFileDetails], the data-access object over the
    [schema_migrations] table, the execution engine [ApplyMigration] and the
    four commands.  Code that lives outside the repository (the file system,
    [strconv], [bcrypt], the Postgres server behind go-pg) is modelled by its
    documented behaviour and kept apart from the repository's own functions. *)

From Stdlib Require Import String Ascii List ZArith Bool Lia.
From Stdlib Require Import Sorting.Sorted Sorting.Permutation.
Import ListNotations.

Local Open Scope string_scope.
Local Open Scope Z_scope.

(* ------------------------------------------------------------------ *)
(** ** Go library functions used by the reader *)

(** [strings.Split(s, sep)] for a non-empty separator: cut at every
    non-overlapping occurrence of [sep], scanning left to right.  The Go
    loop is [m := Index(s, sep); a[i] = s[:m]; s = s[m+len(sep):]]; the fuel
    bounds the number of cuts by the length of the input. *)
Fixpoint genSplit (fuel : nat) (s sep : string) : list string :=
  match fuel with
  | O => [s]
  | S fuel' =>
      match index 0 sep s with
      | None => [s]
      | Some m =>
          substring 0 m s
            :: genSplit fuel'
                 (substring (m + String.length sep)
                            (String.length s - (m + String.length sep)) s)
                 sep
      end
  end.

Definition Split (s sep : string) : list string :=
  genSplit (String.length s) s sep.

(** The decimal value of an ASCII digit, [None] for any other byte. *)
Definition digitOf (c : ascii) : option Z :=
  let n := nat_of_ascii c in
  if ((48 <=? n) && (n <=? 57))%nat then Some (Z.of_nat n - 48) else None.

Fixpoint parseDigits (s : string) (acc : Z) : option Z :=
  match s with
  | EmptyString => Some acc
  | String c rest =>
      match digitOf c with
      | Some d => parseDigits rest (acc * 10 + d)
      | None => None
      end
  end.

Definition minInt : Z := - 2 ^ 63.
Definition maxInt : Z := 2 ^ 63 - 1.

(** [strconv.Atoi] on a 64-bit platform: an optional sign, then at least one
    decimal digit and nothing else; a value outside the range of [int] is a
    range error.  [None] stands for the returned [*NumError]. *)
Definition Atoi (s : string) : option Z :=
  let '(neg, digits) :=
    match s with
    | String "-"%char rest => (true, rest)
    | String "+"%char rest => (false, rest)
    | _ => (false, s)
    end in
  match digits with
  | EmptyString => None
  | _ =>
      match parseDigits digits 0 with
      | None => None
      | Some n =>
          let v := if neg then - n else n in
          if (minInt <=? v) && (v <=? maxInt) then Some v else None
      end
  end.

(** [s[1:]]: Go panics when the string is empty. *)
Definition sliceFrom1 (s : string) : option string :=
  match s with
  | EmptyString => None
  | String _ rest => Some rest
  end.

(* ------------------------------------------------------------------ *)
(** ** Errors and outcomes *)

Inductive error : Type :=
| ErrIO (path : string)               (* ioutil.ReadFile / filepath.Walk failed *)
| ErrInvalidFileName (path : string)  (* invalidFileNameErr *)
| ErrNoRows                           (* pg.ErrNoRows *)
| ErrConstraint (name : string)       (* a violated table constraint *)
| ErrConnection                       (* the ledger statement did not reach the server *)
| ErrExec (message : string)          (* tx.Exec failed on the statement batch *)
| ErrHash.                            (* bcrypt.GenerateFromPassword failed *)

(** A Go call either returns a value, returns a non-nil [error], or panics. *)
Inductive Outcome (A : Type) : Type :=
| Ok (a : A)
| Err (e : error)
| Panic.
Arguments Ok {A} a.
Arguments Err {A} e.
Arguments Panic {A}.

(** [err.Error()] for the errors whose text the code stores. *)
Definition errorText (e : error) : string :=
  match e with
  | ErrIO p => "open " ++ p ++ ": cannot read"
  | ErrInvalidFileName p => "File Name structure is invalid  " ++ p
  | ErrNoRows => "pg: no rows in result set"
  | ErrConstraint n => "ERROR: violates constraint " ++ n
  | ErrConnection => "pg: connection failed"
  | ErrExec m => m
  | ErrHash => "bcrypt: cannot generate hash"
  end.

(* ------------------------------------------------------------------ *)
(** ** Records of the program *)

Record SchemaMigration : Type := mkSchemaMigration {
  ID : Z;
  Version : Z;
  Description : string;
  MigrationType : string;
  FilePath : string;
  ExecutionTime : Z;
  Processed : bool;
  FileContent : string;
  CheckSum : string;
  Success : bool;
  Error : string;
  CreatedAt : Z;
  UpdatedAt : Z
}.

Record config : Type := mkConfig {
  PostgresAddress : string;
  PostgresDatabase : string;
  PostgresUsername : string;
  PostgresPassword : string;
  MigrationDirectoryPath : string;
  Command : string
}.

Record FileDetails : Type := mkFileDetails {
  fdVersion : Z;
  fdDescription : string;
  fdMigrationType : string;
  fdFilePath : string;
  fdFileContent : string;
  fdCheckSum : string
}.

(* ------------------------------------------------------------------ *)
(** ** The file system *)

#[local] Set Warnings "-register-all".

Inductive FsNode : Type :=
| File (name : string) (content : string)
| Dir (name : string) (entries : list FsNode).

Definition nodeName (n : FsNode) : string :=
  match n with File name _ => name | Dir name _ => name end.

Definition isDir (n : FsNode) : bool :=
  match n with Dir _ _ => true | File _ _ => false end.

Definition Join (dir name : string) : string := dir ++ "/" ++ name.

(** [filepath.Walk] without I/O errors: the callback sees the node itself and
    then, for a directory, every entry, depth first.  [path] is the path of
    the node [n]; the entries of a [Dir] are listed in the lexical order in
    which [readDirNames] returns them. *)
Fixpoint walk (path : string) (n : FsNode) : list (string * FsNode) :=
  (path, n) ::
  match n with
  | File _ _ => []
  | Dir _ entries =>
      (fix each (es : list FsNode) : list (string * FsNode) :=
         match es with
         | [] => []
         | child :: rest =>
             (walk (Join path (nodeName child)) child ++ each rest)%list
         end) entries
  end.

Fixpoint lookupPath (p : string) (l : list (string * FsNode)) : option FsNode :=
  match l with
  | [] => None
  | (q, n) :: rest => if String.eqb p q then Some n else lookupPath p rest
  end.

(* ------------------------------------------------------------------ *)
(** ** External collaborators *)

(** What the program consumes and the repository does not define: the target
    database ([tx.Exec] inside a transaction returns the new database or the
    server's error text; [Cost] is the wall time in nanoseconds the batch
    takes) and the core of [bcrypt.GenerateFromPassword] (the digest computed
    from a salt and the password, or the library's error). *)
Class External : Type := {
  Target : Type;
  Exec : Target -> string -> Target + string;
  Cost : Target -> string -> Z;
  bcryptCore : string -> string -> option string
}.

(** What an operator observes of a run: the batches sent to the target
    database and the lines with which the engine and the commands report. *)
Inductive Event : Type :=
| EvExec (id : Z)                     (* ApplySchemaMigration ran record [id] *)
| EvLog (line : string) (e : error)   (* log.Printf of an error *)
| EvVersion (v : Z)                   (* "Current Version %v" *)
| EvExit (code : Z).                  (* os.Exit *)

Section Program.

Context {X : External}.

(** The state the program runs in.  [disk] is the migration directory (its
    name is its path); [entropy] the salts [crypto/rand] will hand out;
    [ledger] the rows of table [schema_migrations] in insertion order;
    [nextID] its serial sequence; [faults] says for each coming ledger
    statement whether the connection fails ([true]); [now] is the clock in
    nanoseconds. *)
Record World : Type := mkWorld {
  disk : FsNode;
  entropy : list string;
  ledger : list SchemaMigration;
  nextID : Z;
  target : Target;
  faults : list bool;
  now : Z;
  trace : list Event
}.

Definition setEntropy (x : list string) (w : World) : World :=
  mkWorld (disk w) x (ledger w) (nextID w) (target w) (faults w) (now w) (trace w).
Definition setLedger (x : list SchemaMigration) (w : World) : World :=
  mkWorld (disk w) (entropy w) x (nextID w) (target w) (faults w) (now w) (trace w).
Definition setNextID (x : Z) (w : World) : World :=
  mkWorld (disk w) (entropy w) (ledger w) x (target w) (faults w) (now w) (trace w).
Definition setTarget (x : Target) (w : World) : World :=
  mkWorld (disk w) (entropy w) (ledger w) (nextID w) x (faults w) (now w) (trace w).
Definition setFaults (x : list bool) (w : World) : World :=
  mkWorld (disk w) (entropy w) (ledger w) (nextID w) (target w) x (now w) (trace w).
Definition setNow (x : Z) (w : World) : World :=
  mkWorld (disk w) (entropy w) (ledger w) (nextID w) (target w) (faults w) x (trace w).
Definition emit (e : Event) (w : World) : World :=
  mkWorld (disk w) (entropy w) (ledger w) (nextID w) (target w) (faults w) (now w)
          (trace w ++ [e])%list.

(** A computation threads the world and ends in an [Outcome]. *)
Definition M (A : Type) : Type := World -> Outcome A * World.

Definition ret {A} (a : A) : M A := fun w => (Ok a, w).
Definition fail {A} (e : error) : M A := fun w => (Err e, w).

(** [x, err := m; if err != nil { return err }; k x] *)
Definition bind {A B} (m : M A) (k : A -> M B) : M B :=
  fun w =>
    match m w with
    | (Ok a, w') => k a w'
    | (Err e, w') => (Err e, w')
    | (Panic, w') => (Panic, w')
    end.

(** [x, err := m; k (x, err)]: the caller inspects the error itself; only a
    panic unwinds through it. *)
Definition inspect {A B} (m : M A) (k : A + error -> M B) : M B :=
  fun w =>
    match m w with
    | (Ok a, w') => k (inl a) w'
    | (Err e, w') => k (inr e) w'
    | (Panic, w') => (Panic, w')
    end.

Definition logError {A} (line : string) (e : error) (k : M A) : M A :=
  fun w => k (emit (EvLog line e) w).

End Program.

Notation "x <- m ;; k" := (bind m (fun x => k))
  (at level 61, m at next level, right associativity).
Notation "x <~ m ;; k" := (inspect m (fun x => k))
  (at level 61, m at next level, right associativity).

Section Migrations.

Context {X : External}.

(* ------------------------------------------------------------------ *)
(** ** The source reader *)

(** [ioutil.ReadFile]: only a regular file of the migration directory can be
    read; a directory or a missing path is an I/O error. *)
Definition ReadFile (filePath : string) : M string :=
  fun w =>
    match lookupPath filePath (walk (nodeName (disk w)) (disk w)) with
    | Some (File _ content) => (Ok content, w)
    | _ => (Err (ErrIO filePath), w)
    end.

(** [bcrypt.GenerateFromPassword(password, bcrypt.DefaultCost)]: the library
    draws a fresh salt and returns the version and cost prefix, the salt and
    the digest in one string. *)
Definition GenerateFromPassword (password : string) : M string :=
  fun w =>
    match entropy w with
    | [] => (Err ErrHash, w)
    | salt :: rest =>
        match bcryptCore salt password with
        | Some digest => (Ok ("$2a$10$" ++ salt ++ digest), setEntropy rest w)
        | None => (Err ErrHash, setEntropy rest w)
        end
    end.

Definition GetFileDetails (filePath : string) : M FileDetails :=
  let invalidFileNameErr := ErrInvalidFileName filePath in
  fileContent <- ReadFile filePath ;;
  let fileStrs := Split filePath "/" in
  let fileStrs := Split (last fileStrs "") "." in
  if negb (length fileStrs =? 3)%nat then fail invalidFileNameErr else
  let tag := nth 1 fileStrs "" in
  match (if (tag =? "up")%string then Some "UPGRADE"
         else if (tag =? "down")%string then Some "DOWNGRADE"
         else None) with
  | None => fail invalidFileNameErr
  | Some migrationType =>
      let fileStrs := Split (nth 0 fileStrs "") "__" in
      if negb (length fileStrs =? 2)%nat then fail invalidFileNameErr else
      let description := nth 1 fileStrs "" in
      match sliceFrom1 (nth 0 fileStrs "") with
      | None => fun w => (Panic, w)
      | Some versionStr =>
          match Atoi versionStr with
          | None => fail invalidFileNameErr
          | Some version =>
              hash <~ GenerateFromPassword fileContent ;;
              match hash with
              | inr _ => fail invalidFileNameErr
              | inl hash =>
                  ret (mkFileDetails version description migrationType filePath
                                     fileContent hash)
              end
          end
      end
  end.

(* ------------------------------------------------------------------ *)
(** ** The data-access object over table [schema_migrations] *)

(** Every statement of the DAO goes over the connection, which may fail
    before the statement has any effect. *)
Definition dbCall {A} (k : M A) : M A :=
  fun w =>
    match faults w with
    | true :: rest => (Err ErrConnection, setFaults rest w)
    | false :: rest => k (setFaults rest w)
    | [] => k w
    end.

Definition CountSchemaMigrationForFilePath (filePath : string) : M Z :=
  dbCall (fun w =>
    (Ok (Z.of_nat (length (filter (fun r => (FilePath r =? filePath)%string)
                                  (ledger w)))), w)).

(** The columns tagged [notnull] without [use_zero]: go-pg sends a Go zero
    value of such a field as [DEFAULT], which the column rejects. *)
Definition notNullOk (sm : SchemaMigration) : bool :=
  negb (Version sm =? 0) && negb (Description sm =? "")%string
  && negb (MigrationType sm =? "")%string && negb (FilePath sm =? "")%string
  && negb (FileContent sm =? "")%string && negb (CheckSum sm =? "")%string.

(** [unique:idx_unique_schema_version_migration_type] over [Version] and
    [MigrationType]. *)
Definition sameKey (a b : SchemaMigration) : bool :=
  (Version a =? Version b) && (MigrationType a =? MigrationType b)%string.

Definition withID (id : Z) (sm : SchemaMigration) : SchemaMigration :=
  mkSchemaMigration id (Version sm) (Description sm) (MigrationType sm)
    (FilePath sm) (ExecutionTime sm) (Processed sm) (FileContent sm)
    (CheckSum sm) (Success sm) (Error sm) (CreatedAt sm) (UpdatedAt sm).

(** [d.db.Insert(sm)] with [sm.ID] left at zero, as its only caller does: the
    server draws the id from the serial sequence (a value drawn is spent even
    when the row is rejected) and checks the constraints of the table. *)
Definition AddSchemaMigration (sm : SchemaMigration) : M SchemaMigration :=
  dbCall (fun w =>
    let row := withID (nextID w) sm in
    let w := setNextID (nextID w + 1) w in
    if negb (notNullOk sm) then (Err (ErrConstraint "not-null"), w)
    else if existsb (sameKey sm) (ledger w)
    then (Err (ErrConstraint "idx_unique_schema_version_migration_type"), w)
    else (Ok row, setLedger (ledger w ++ [row])%list w)).

(** [ORDER BY id] in either direction, by insertion. *)
Fixpoint insertBy (before : Z -> Z -> bool) (r : SchemaMigration)
         (l : list SchemaMigration) : list SchemaMigration :=
  match l with
  | [] => [r]
  | x :: rest =>
      if before (ID r) (ID x) then r :: l else x :: insertBy before r rest
  end.

Definition sortBy (before : Z -> Z -> bool) (l : list SchemaMigration)
  : list SchemaMigration :=
  fold_right (insertBy before) [] l.

Definition orderRows (order : string) (rows : list SchemaMigration)
  : list SchemaMigration :=
  if (order =? "id ASC")%string then sortBy Z.leb rows
  else if (order =? "id DESC")%string then sortBy Z.geb rows
  else rows.

Definition unprocessedOfType (migrationType : string) (r : SchemaMigration) : bool :=
  negb (Processed r) && (MigrationType r =? migrationType)%string.

Definition FetchUnProcessedSchemaMigrations (migrationType order : string)
  : M (list SchemaMigration) :=
  dbCall (fun w =>
    (Ok (orderRows order (filter (unprocessedOfType migrationType) (ledger w))), w)).

Definition updateRow (executionTime : Z) (processed success : bool) (e : string)
           (r : SchemaMigration) : SchemaMigration :=
  mkSchemaMigration (ID r) (Version r) (Description r) (MigrationType r)
    (FilePath r) executionTime processed (FileContent r) (CheckSum r)
    success e (CreatedAt r) (UpdatedAt r).

(** [UPDATE ... SET execution_time, processed, success, error WHERE id = ?]:
    the four listed columns of the matching row are written, nothing else. *)
Definition UpdateSchemaMigration (id executionTime : Z) (processed success : bool)
           (e : string) : M SchemaMigration :=
  dbCall (fun w =>
    let schemaMigration :=
      mkSchemaMigration id 0 "" "" "" executionTime processed "" "" success e
                        0 (now w) in
    (Ok schemaMigration,
     setLedger (map (fun r => if ID r =? id
                              then updateRow executionTime processed success e r
                              else r) (ledger w)) w)).

(** [tx.Exec(sm.FileContent)] between [Begin] and [Commit]; on an error the
    transaction is rolled back and the target keeps its state. *)
Definition ApplySchemaMigration (sm : SchemaMigration) : M SchemaMigration :=
  fun w =>
    let w := emit (EvExec (ID sm)) w in
    let finished := setNow (now w + Cost (target w) (FileContent sm)) w in
    match Exec (target w) (FileContent sm) with
    | inr message => (Err (ErrExec message), finished)
    | inl target' => (Ok sm, setTarget target' finished)
    end.

Definition FetchUnProcessedSchemaMigrationBasedOnVersionAndType
           (id : Z) (migrationType : string) : M SchemaMigration :=
  dbCall (fun w =>
    match filter (fun r => (ID r =? id) && unprocessedOfType migrationType r)
                 (ledger w) with
    | [] => (Err ErrNoRows, w)
    | schemaMigration :: _ => (Ok schemaMigration, w)
    end).

(** [.Last()] is [ORDER BY id DESC LIMIT 1]. *)
Definition GetCurrentVersion : M SchemaMigration :=
  dbCall (fun w =>
    match sortBy Z.geb
            (filter (fun r => Processed r && (MigrationType r =? "UPGRADE")%string)
                    (ledger w)) with
    | [] => (Err ErrNoRows, w)
    | schemaMigration :: _ => (Ok schemaMigration, w)
    end).

(* ------------------------------------------------------------------ *)
(** ** The execution engine *)

Definition timeNow : M Z := fun w => (Ok (now w), w).

Definition ApplyMigration (migrationSchema : SchemaMigration) : M unit :=
  start <- timeNow ;;
  applied <~ ApplySchemaMigration migrationSchema ;;
  end_ <- timeNow ;;
  let executionTime := Z.quot (end_ - start) 1000000000 in
  match applied with
  | inr err =>
      _ <~ UpdateSchemaMigration (ID migrationSchema) executionTime true false
                                 (errorText err) ;;
      logError "Unable to apply schemas" err (fail err)
  | inl _ =>
      updated <~ UpdateSchemaMigration (ID migrationSchema) executionTime true
                                       true "" ;;
      match updated with
      | inr err => logError "Unable to update schemas" err (fail err)
      | inl _ => ret tt
      end
  end.

(* ------------------------------------------------------------------ *)
(** ** The reconciler *)

Definition AddEntryToDB (filePath : string) : M SchemaMigration :=
  fileDetails <- GetFileDetails filePath ;;
  now_ <- timeNow ;;
  let sm :=
    mkSchemaMigration 0 (fdVersion fileDetails) (fdDescription fileDetails)
      (fdMigrationType fileDetails) (fdFilePath fileDetails) 0 false
      (fdFileContent fileDetails) (fdCheckSum fileDetails) false "" now_ now_ in
  AddSchemaMigration sm.

(** [filepath.Walk] with the callback of [AddNewSchemaMigrations], which
    collects every path it is shown.  A root other than the migration
    directory does not exist. *)
Definition Walk (root : string) : M (list string) :=
  fun w =>
    if (root =? nodeName (disk w))%string
    then (Ok (map fst (walk root (disk w))), w)
    else (Err (ErrIO root), w).

(** The loop [for _, filePath := range files] of [AddNewSchemaMigrations]. *)
Fixpoint registerEach (migrationRootDirectory : string) (files : list string)
  : M unit :=
  match files with
  | [] => ret tt
  | filePath :: rest =>
      if (filePath =? migrationRootDirectory)%string
      then registerEach migrationRootDirectory rest
      else
        count <~ CountSchemaMigrationForFilePath filePath ;;
        match count with
        | inr err => logError "Error will processing" err (fail err)
        | inl count =>
            if count =? 1 then registerEach migrationRootDirectory rest
            else
              sm <~ AddEntryToDB filePath ;;
              match sm with
              | inr err => logError "Error will processing" err (fail err)
              | inl _ => registerEach migrationRootDirectory rest
              end
        end
  end.

Definition AddNewSchemaMigrations (migrationRootDirectory : string) : M unit :=
  files <~ Walk migrationRootDirectory ;;
  match files with
  | inr err => logError "" err (fail err)
  | inl files => registerEach migrationRootDirectory files
  end.

(* ------------------------------------------------------------------ *)
(** ** The commands *)

(** The loop of [syncLatestMigrations]. *)
Fixpoint applyEach (unProcessedMigrations : list SchemaMigration) : M unit :=
  match unProcessedMigrations with
  | [] => ret tt
  | migrationSchema :: rest =>
      _ <- ApplyMigration migrationSchema ;;
      applyEach rest
  end.

Definition syncLatestMigrations (migrationRootDirectory : string) : M unit :=
  _ <- AddNewSchemaMigrations migrationRootDirectory ;;
  unProcessedMigrations <- FetchUnProcessedSchemaMigrations "UPGRADE" "id ASC" ;;
  applyEach unProcessedMigrations.

Definition revertMigration (version : Z) : M unit :=
  sm <- FetchUnProcessedSchemaMigrationBasedOnVersionAndType version "DOWNGRADE" ;;
  ApplyMigration sm.

(** The loop of [revertAll]. *)
Fixpoint revertEach (unProcessedMigrations : list SchemaMigration) : M unit :=
  match unProcessedMigrations with
  | [] => ret tt
  | migrationSchema :: rest =>
      applied <~ ApplyMigration migrationSchema ;;
      match applied with
      | inr err => logError "Unable to rever" err (revertEach rest)
      | inl _ => revertEach rest
      end
  end.

Definition revertAll : M unit :=
  unProcessedMigrations <~ FetchUnProcessedSchemaMigrations "DOWNGRADE" "id DESC" ;;
  match unProcessedMigrations with
  | inr err => logError "Unable to reset." err (revertEach [])
  | inl unProcessedMigrations => revertEach unProcessedMigrations
  end.

Definition getCurrentVersion : M unit :=
  latestMigration <~ GetCurrentVersion ;;
  match latestMigration with
  | inr err => logError "Unable to fetch Current Version." err (ret tt)
  | inl latestMigration =>
      fun w => (Ok tt, emit (EvVersion (Version latestMigration)) w)
  end.

Definition upgradeMigration (conf : config) : M unit :=
  synced <~ syncLatestMigrations (MigrationDirectoryPath conf) ;;
  match synced with
  | inr err => logError "Unable to sync the migration directory" err (ret tt)
  | inl _ => ret tt
  end.

Definition downgradeMigration : M unit :=
  latestMigration <~ GetCurrentVersion ;;
  match latestMigration with
  | inr err =>
      logError "Unable to fetch Current Version." err
               (fun w => (Ok tt, emit (EvExit 1) w))
  | inl latestMigration =>
      reverted <~ revertMigration (Version latestMigration) ;;
      match reverted with
      | inr err => logError "Unable to revert migration." err (ret tt)
      | inl _ => ret tt
      end
  end.

(** The [switch conf.Command] of [main], after the connection is set up. *)
Definition main (conf : config) : M unit :=
  if (Command conf =? "version")%string then getCurrentVersion
  else if (Command conf =? "up")%string then upgradeMigration conf
  else if (Command conf =? "down")%string then downgradeMigration
  else if (Command conf =? "reset")%string then revertAll
  else ret tt.

End Migrations.

(* ------------------------------------------------------------------ *)
(** ** A sample installation *)

Module Sample.

(** A target database that remembers the batches it committed and rejects a
    batch starting with [BOGUS]; every batch takes two and a half seconds;
    the digest is a stand-in that copies the password. *)
#[export] Instance external : External := {|
  Target := list string;
  Exec := fun db sql =>
            if prefix "BOGUS" sql then inr "syntax error at or near BOGUS"
            else inl (db ++ [sql])%list;
  Cost := fun _ _ => 2500000000;
  bcryptCore := fun _ password => Some password
|}.

Definition conf (command : string) : config :=
  mkConfig "localhost:5432" "saas" "saas" "saas" "sql" command.

(** A fresh installation over the directory [d]: empty ledger, empty target,
    a reliable connection. *)
Definition fresh (d : FsNode) (salts : list string) : World :=
  mkWorld d salts [] 1 [] [] 1000 [].

Definition run {A} (m : M A) (w : World) : World := snd (m w).

Definition salts : list string := ["saltA"; "saltB"; "saltC"; "saltD"; "saltE"; "saltF"].

Definition twoUpgrades : FsNode :=
  Dir "sql" [File "V1__init.up.sql" "CREATE TABLE orgs ()";
             File "V2__broken.up.sql" "BOGUS TABLE"].

Definition threeVersions : FsNode :=
  Dir "sql" [File "V1__a.down.sql" "DROP TABLE a";
             File "V1__a.up.sql" "CREATE TABLE a ()";
             File "V2__b.down.sql" "DROP TABLE b";
             File "V2__b.up.sql" "CREATE TABLE b ()";
             File "V3__c.down.sql" "DROP TABLE c";
             File "V3__c.up.sql" "CREATE TABLE c ()"].

Definition brokenMiddle : FsNode :=
  Dir "sql" [File "V1__a.up.sql" "CREATE TABLE a ()";
             File "V2__b.up.sql" "BOGUS TABLE b";
             File "V3__c.up.sql" "CREATE TABLE c ()"].

Definition brokenMiddleDown : FsNode :=
  Dir "sql" [File "V1__a.down.sql" "DROP TABLE a";
             File "V2__b.down.sql" "BOGUS TABLE b";
             File "V3__c.down.sql" "DROP TABLE c"].

Definition twoVersions : FsNode :=
  Dir "sql" [File "V1__a.down.sql" "DROP TABLE a";
             File "V1__a.up.sql" "CREATE TABLE a ()";
             File "V2__b.down.sql" "DROP TABLE b";
             File "V2__b.up.sql" "CREATE TABLE b ()"].

Definition oneFile (name content : string) : FsNode :=
  Dir "sql" [File name content].

Definition nested : FsNode :=
  Dir "sql" [Dir "2020" [File "V1__init.up.sql" "CREATE TABLE orgs ()"]].

End Sample.


(** Worlds of the sample installation that the statements below refer to:
    for the batch loops (the second of three records fails), the reader,
    the commands and the reconciler. *)

Module EngineSample.
Import Sample.

Definition registered : World :=
  run (AddNewSchemaMigrations "sql") (fresh brokenMiddle salts).

Definition outstanding : list SchemaMigration :=
  orderRows "id ASC" (filter (unprocessedOfType "UPGRADE") (ledger registered)).

Definition registeredDown : World :=
  run (AddNewSchemaMigrations "sql") (fresh brokenMiddleDown salts).

Definition outstandingDown : list SchemaMigration :=
  orderRows "id DESC"
            (filter (unprocessedOfType "DOWNGRADE") (ledger registeredDown)).

End EngineSample.

Module ReaderSample.
Import Sample.

Definition createOrgs : string := "CREATE TABLE orgs ()".

Definition once : World := fresh (oneFile "V1__init.up.sql" createOrgs) salts.

Definition copy : World := fresh (oneFile "V2__copy.up.sql" createOrgs) salts.

Definition letters : World := fresh (oneFile "Vx1__init.up.sql" createOrgs) salts.

Definition negative : World := fresh (oneFile "V-7__neg.up.sql" createOrgs) salts.

Definition noVersion : World := fresh (oneFile "__x.up.sql" createOrgs) salts.

End ReaderSample.

Module CommandSample.
Import Sample.

Definition afterBrokenUp : World := run (main (conf "up")) (fresh twoUpgrades salts).

Definition afterUp2 : World := run (main (conf "up")) (fresh twoVersions salts).

Definition afterUp3 : World := run (main (conf "up")) (fresh threeVersions salts).

End CommandSample.

Module ReconcilerSample.
Import Sample.

Definition first : World := fresh twoVersions salts.

Definition registered : World := run (AddNewSchemaMigrations "sql") first.

End ReconcilerSample.

Module CoverageSample.
Import Sample.

(** Version 10 sorts before version 2 in a directory listing. *)
Definition outOfOrder : FsNode :=
  Dir "sql" [File "V10__later.down.sql" "DROP TABLE later";
             File "V10__later.up.sql" "CREATE TABLE later ()";
             File "V2__earlier.down.sql" "DROP TABLE earlier";
             File "V2__earlier.up.sql" "CREATE TABLE earlier ()"].

Definition afterOutOfOrderUp : World :=
  run (main (conf "up")) (fresh outOfOrder salts).

Definition outstandingDowngrades : list SchemaMigration :=
  filter (unprocessedOfType "DOWNGRADE") (ledger afterOutOfOrderUp).

(** Two names for version 1 and type UPGRADE. *)
Definition sameKeyTwice : FsNode :=
  Dir "sql" [File "V01__b.up.sql" "CREATE TABLE b ()";
             File "V1__a.up.sql" "CREATE TABLE a ()"].

Definition firstRegistered : World :=
  run (AddNewSchemaMigrations "sql") (fresh sameKeyTwice salts).

Definition firstRow : SchemaMigration :=
  mkSchemaMigration 1 1 "b" "UPGRADE" "sql/V01__b.up.sql" 0 false
    "CREATE TABLE b ()" "$2a$10$saltACREATE TABLE b ()" false "" 1000 1000.

Definition secondDetails : FileDetails :=
  mkFileDetails 1 "a" "UPGRADE" "sql/V1__a.up.sql" "CREATE TABLE a ()"
    "$2a$10$saltCCREATE TABLE a ()".

Definition failedRow : SchemaMigration :=
  mkSchemaMigration 2 2 "broken" "UPGRADE" "sql/V2__broken.up.sql" 2 true
    "BOGUS TABLE" "$2a$10$saltBBOGUS TABLE" false
    "syntax error at or near BOGUS" 1000 1000.

Definition afterGoodUp : World :=
  run (syncLatestMigrations "sql") (fresh twoVersions salts).

End CoverageSample.

(* ------------------------------------------------------------------ *)
(** ** Vocabulary of the statements *)

(** The record ids whose batches a trace shows as sent to the target. *)
Fixpoint executed (evs : list Event) : list Z :=
  match evs with
  | [] => []
  | EvExec id :: rest => id :: executed rest
  | _ :: rest => executed rest
  end.

(** Fail-fast batch: every record before the failing one leaves a single
    [EvExec]; the failing one leaves its [EvExec] and the engine's report,
    and nothing follows it. *)
Inductive FailFast : list SchemaMigration -> list Event -> Outcome unit -> Prop :=
| FailFast_done : FailFast [] [] (Ok tt)
| FailFast_next sm rest evs r :
    FailFast rest evs r ->
    FailFast (sm :: rest) (EvExec (ID sm) :: evs) r
| FailFast_stop sm rest line e :
    FailFast (sm :: rest) [EvExec (ID sm); EvLog line e] (Err e).

(** Best-effort batch: every record leaves its [EvExec]; a failing one also
    leaves the engine's report and the report of [revertAll], and the batch
    goes on. *)
Inductive BestEffort : list SchemaMigration -> list Event -> Prop :=
| BestEffort_done : BestEffort [] []
| BestEffort_applied sm rest evs :
    BestEffort rest evs ->
    BestEffort (sm :: rest) (EvExec (ID sm) :: evs)
| BestEffort_failed sm rest evs line e :
    BestEffort rest evs ->
    BestEffort (sm :: rest)
               (EvExec (ID sm) :: EvLog line e :: EvLog "Unable to rever" e :: evs).

(** The version and the direction that [GetFileDetails] reads off a path,
    when it reads any: the parse of the name alone, with neither the file
    read nor the hash. *)
Definition keyOf (filePath : string) : option (Z * string) :=
  let fileStrs := Split (last (Split filePath "/") "") "." in
  if negb (length fileStrs =? 3)%nat then None else
  let tag := nth 1 fileStrs "" in
  match (if (tag =? "up")%string then Some "UPGRADE"
         else if (tag =? "down")%string then Some "DOWNGRADE"
         else None) with
  | None => None
  | Some migrationType =>
      let fileStrs := Split (nth 0 fileStrs "") "__" in
      if negb (length fileStrs =? 2)%nat then None else
      match sliceFrom1 (nth 0 fileStrs "") with
      | None => None
      | Some versionStr =>
          match Atoi versionStr with
          | None => None
          | Some version => Some (version, migrationType)
          end
      end
  end.

(** The spec's words for the version token: a non-negative integer, that is
    one decimal digit or more and nothing else. *)
Definition nonNegativeInteger (s : string) : bool :=
  match s with
  | EmptyString => false
  | _ => match parseDigits s 0 with Some _ => true | None => false end
  end.

(** The number of ledger rows registered for a path. *)
Definition countPath (filePath : string) (l : list SchemaMigration) : Z :=
  Z.of_nat (length (filter (fun r => (FilePath r =? filePath)%string) l)).

Definition hasKey (k : Z * string) (r : SchemaMigration) : bool :=
  (fst k =? Version r) && (snd k =? MigrationType r)%string.

(** A path the reconciler has nothing left to do for: it has its one row, or
    the key its name parses to is taken, so that an insert is refused. *)
Definition Settled (l : list SchemaMigration) (filePath : string) : Prop :=
  countPath filePath l = 1
  \/ exists k, keyOf filePath = Some k /\ existsb (hasKey k) l = true.

(** A row that carries the key its own path parses to. *)
Definition Faithful (r : SchemaMigration) : Prop :=
  keyOf (FilePath r) = Some (Version r, MigrationType r).

(** Unattempted work is neither successful nor failed. *)
Definition Unattempted (r : SchemaMigration) : Prop :=
  Processed r = false -> Success r = false /\ Error r = "".

Definition LedgerInv (l : list SchemaMigration) : Prop := Forall Unattempted l.

(** The worlds the program can be in: the table starts empty, the commands
    change it, and between two commands anything but the ledger may change
    (files, salts, the connection, the target, the clock). *)
Inductive Reachable {X : External} : World -> Prop :=
| Reachable_installed w : ledger w = [] -> Reachable w
| Reachable_command conf w : Reachable w -> Reachable (snd (main conf w))
| Reachable_environment w w' : Reachable w -> ledger w' = ledger w -> Reachable w'.

(** A computation that keeps the ledger invariant. *)
Definition Preserves {X : External} {A} (m : M A) : Prop :=
  forall w, LedgerInv (ledger w) -> LedgerInv (ledger (snd (m w))).

Definition idAscending (a b : SchemaMigration) : Prop := ID a <= ID b.
Definition idDescending (a b : SchemaMigration) : Prop := ID b <= ID a.

(** The columns of a row that the program writes once, at registration. *)
Definition identity (r : SchemaMigration)
  : Z * Z * string * string * string * string * string :=
  (ID r, Version r, Description r, MigrationType r, FilePath r,
   FileContent r, CheckSum r).

(** Row by row, the same rows with the same identity; a row that was
    processed is still processed. *)
Definition Evolves (l l' : list SchemaMigration) : Prop :=
  Forall2 (fun a b => identity a = identity b
                      /\ (Processed a = true -> Processed b = true)) l l'.

(** A ledger that kept its rows, in place, and may have new ones behind. *)
Definition Grows (l l' : list SchemaMigration) : Prop :=
  exists kept added, l' = (kept ++ added)%list /\ Evolves l kept.

(** Row by row, the same rows with the same identity, and the very same
    row wherever the id is not one of [ids]. *)
Definition OnlyIds (ids : list Z) (l l' : list SchemaMigration) : Prop :=
  Forall2 (fun a b => identity b = identity a
                      /\ (~ In (ID a) ids -> b = a)) l l'.

Definition isUpgrade (r : SchemaMigration) : bool :=
  (MigrationType r =? "UPGRADE")%string.

(** A row as the reconciler registers it. *)
Definition Registered (r : SchemaMigration) : Prop :=
  Processed r = false /\ Success r = false /\ Error r = ""
  /\ ExecutionTime r = 0.

(** A computation whose start and end are always in relation [R]. *)
Definition Relates {X : External} {A} (R : World -> World -> Prop) (m : M A)
  : Prop :=
  forall w, R w (snd (m w)).

Definition idBefore (a b : SchemaMigration) : Prop := ID a < ID b.

(** The ids of the ledger rise along the rows and stay below the sequence. *)
Definition IdsFresh {X : External} (w : World) : Prop :=
  StronglySorted idBefore (ledger w) /\ Forall (fun r => ID r < nextID w) (ledger w).

(** The worlds of an installation whose table and sequence only the program
    touches: between two commands the files, the salts, the connection, the
    target and the clock may change. *)
Inductive Operated {X : External} : World -> Prop :=
| Operated_installed w : ledger w = [] -> Operated w
| Operated_command conf w : Operated w -> Operated (snd (main conf w))
| Operated_environment w w' :
    Operated w -> ledger w' = ledger w -> nextID w' = nextID w -> Operated w'.

(** [Atoi] behind its sign: at least one digit, and a value in range. *)
Definition atoiDigits (neg : bool) (digits : string) : option Z :=
  match digits with
  | EmptyString => None
  | _ =>
      match parseDigits digits 0 with
      | None => None
      | Some n =>
          let v := if neg then - n else n in
          if (minInt <=? v) && (v <=? maxInt) then Some v else None
      end
  end.

(** The table is as it was. *)
Definition sameTable {X : External} (w w' : World) : Prop :=
  ledger w' = ledger w /\ nextID w' = nextID w.

(** The directory is as it was and the ledger kept its rows. *)
Definition steady {X : External} (w w' : World) : Prop :=
  disk w' = disk w /\ Evolves (ledger w) (ledger w').

(** No batch was sent and the target is as it was. *)
Definition quiet {X : External} (w w' : World) : Prop :=
  target w' = target w /\ executed (trace w') = executed (trace w).

(** A byte that occurs in a string. *)
Fixpoint occurs (c : ascii) (s : string) : bool :=
  match s with
  | EmptyString => false
  | String d rest => Ascii.eqb c d || occurs c rest
  end.

(* ------------------------------------------------------------------ *)
(** ** [Split] does not depend on its fuel *)

Lemma length_substring_le s : forall a n,
  (String.length (substring a n s) <= n)%nat.
Proof.
  induction s as [|c s IH]; intros [|a] [|n]; simpl; try lia.
  - specialize (IH O n). lia.
  - apply IH.
  - apply IH.
Qed.

Lemma substring_fits s : forall a n,
  String.length (substring a n s) = n ->
  (n = 0 \/ a + n <= String.length s)%nat.
Proof.
  induction s as [|c s IH]; intros [|a] [|n]; simpl; intros H; try lia.
  - injection H as H. destruct (IH O n H); lia.
  - destruct (IH a (S n) H); lia.
Qed.

Lemma index_fits sep s m :
  sep <> "" -> index 0 sep s = Some m ->
  (m + String.length sep <= String.length s /\ 0 < String.length sep)%nat.
Proof.
  intros Hne Hi. apply index_correct1 in Hi.
  assert (Hl : String.length (substring m (String.length sep) s)
               = String.length sep) by (rewrite Hi; reflexivity).
  destruct sep as [|c sep]; [congruence|].
  destruct (substring_fits _ _ _ Hl) as [H|H]; simpl in *; lia.
Qed.

(** Every cut removes at least one byte, so the length of the input is fuel
    enough: more fuel gives the same pieces. *)
Lemma genSplit_fuel sep : sep <> "" -> forall fuel fuel' s,
  (String.length s <= fuel)%nat -> (String.length s <= fuel')%nat ->
  genSplit fuel s sep = genSplit fuel' s sep.
Proof.
  intros Hne. induction fuel as [|fuel IH]; intros fuel' s H H'.
  - destruct s; [|simpl in H; lia]. destruct fuel'; simpl; [reflexivity|].
    destruct sep; [congruence | reflexivity].
  - destruct fuel' as [|fuel'].
    + destruct s; [|simpl in H'; lia]. simpl.
      destruct sep; [congruence | reflexivity].
    + simpl. destruct (index 0 sep s) as [m|] eqn:E; [|reflexivity].
      destruct (index_fits _ _ _ Hne E) as (Hm & Hs).
      pose proof (length_substring_le s (m + String.length sep)
                    (String.length s - (m + String.length sep))).
      f_equal. apply IH; lia.
Qed.

Lemma Split_fuel s sep n :
  sep <> "" -> genSplit (String.length s + n) s sep = Split s sep.
Proof.
  intros Hne. unfold Split. apply genSplit_fuel; [exact Hne | lia | lia].
Qed.

(* ------------------------------------------------------------------ *)
(** ** Ordering of fetched rows *)

Section Ordering.

Variable before : Z -> Z -> bool.
Variable R : SchemaMigration -> SchemaMigration -> Prop.
Hypothesis before_R : forall a b, before (ID a) (ID b) = true -> R a b.
Hypothesis before_total : forall a b, before (ID a) (ID b) = false -> R b a.
Hypothesis R_trans : forall a b c, R a b -> R b c -> R a c.

Lemma insertBy_perm r l : Permutation (insertBy before r l) (r :: l).
Proof.
  induction l as [|x rest IH]; simpl.
  - apply Permutation_refl.
  - destruct (before (ID r) (ID x)).
    + apply Permutation_refl.
    + eapply Permutation_trans; [apply perm_skip, IH | apply perm_swap].
Qed.

Lemma sortBy_perm l : Permutation (sortBy before l) l.
Proof.
  induction l as [|x rest IH]; simpl.
  - constructor.
  - eapply Permutation_trans; [apply insertBy_perm | apply perm_skip, IH].
Qed.

Lemma insertBy_sorted r l :
  StronglySorted R l -> StronglySorted R (insertBy before r l).
Proof.
  induction 1 as [|x rest Hs IH Hall]; simpl.
  - repeat constructor.
  - destruct (before (ID r) (ID x)) eqn:E.
    + constructor; [constructor; assumption|].
      constructor; [auto|].
      eapply Forall_impl; [|exact Hall]. intros; eapply R_trans; eauto.
    + constructor; [assumption|].
      eapply Permutation_Forall; [apply Permutation_sym, insertBy_perm|].
      constructor; auto.
Qed.

Lemma sortBy_sorted l : StronglySorted R (sortBy before l).
Proof.
  induction l; simpl; [constructor | apply insertBy_sorted; assumption].
Qed.

End Ordering.

Lemma sortBy_leb_sorted l : StronglySorted idAscending (sortBy Z.leb l).
Proof.
  apply sortBy_sorted; unfold idAscending; intros.
  - apply Z.leb_le; assumption.
  - apply Z.leb_gt in H; lia.
  - lia.
Qed.

Lemma sortBy_geb_sorted l : StronglySorted idDescending (sortBy Z.geb l).
Proof.
  apply sortBy_sorted; unfold idDescending; intros.
  - rewrite Z.geb_leb in H. apply Z.leb_le; assumption.
  - rewrite Z.geb_leb in H. apply Z.leb_gt in H; lia.
  - lia.
Qed.

(* ------------------------------------------------------------------ *)
(** ** The two single-row queries *)

Section Queries.

Context {X : External}.

(** What [GetCurrentVersion] returns when it returns a row: the row of the
    highest id among those that are processed and of type UPGRADE, whether
    the attempt succeeded or not. *)
Lemma GetCurrentVersion_Ok w sm w' :
  GetCurrentVersion w = (Ok sm, w') ->
  In sm (ledger w) /\ Processed sm = true /\ MigrationType sm = "UPGRADE"
  /\ forall r, In r (ledger w) -> Processed r = true ->
               MigrationType r = "UPGRADE" -> ID r <= ID sm.
Proof.
  unfold GetCurrentVersion, dbCall.
  set (f := fun r => Processed r && (MigrationType r =? "UPGRADE")%string).
  assert (Hbody : forall v : World, ledger v = ledger w ->
            match sortBy Z.geb (filter f (ledger v)) with
            | [] => (Err ErrNoRows, v)
            | schemaMigration :: _ => (Ok schemaMigration, v)
            end = (Ok sm, w') ->
            In sm (ledger w) /\ Processed sm = true
            /\ MigrationType sm = "UPGRADE"
            /\ forall r, In r (ledger w) -> Processed r = true ->
                         MigrationType r = "UPGRADE" -> ID r <= ID sm).
  { intros v Hl. rewrite Hl.
    pose proof (sortBy_perm Z.geb (filter f (ledger w))) as Hperm.
    pose proof (sortBy_geb_sorted (filter f (ledger w))) as Hsorted.
    destruct (sortBy Z.geb (filter f (ledger w))) as [|x rest]; [discriminate|].
    intros H; inversion H; subst x.
    assert (Hin : In sm (filter f (ledger w))).
    { eapply Permutation_in; [exact Hperm | left; reflexivity]. }
    apply filter_In in Hin. destruct Hin as (Hin & Hf).
    unfold f in Hf. apply andb_true_iff in Hf. destruct Hf as (Hp & Ht).
    apply String.eqb_eq in Ht.
    split; [exact Hin|]. split; [exact Hp|]. split; [exact Ht|].
    intros r Hr Hrp Hrt.
    assert (Hr' : In r (sm :: rest)).
    { eapply Permutation_in; [apply Permutation_sym; exact Hperm|].
      apply filter_In. split; [exact Hr|]. unfold f.
      rewrite Hrp, Hrt. reflexivity. }
    destruct Hr' as [->|Hr']; [lia|].
    inversion Hsorted as [|? ? _ Hall]; subst.
    rewrite Forall_forall in Hall. apply (Hall r Hr'). }
  destruct (faults w) as [|[|] fs]; try discriminate; apply Hbody; reflexivity.
Qed.

(** What the query of [revertMigration] returns when it returns a row: an
    outstanding row of the asked type whose id is the number passed in. *)
Lemma FetchByVersion_Ok id migrationType w sm w' :
  FetchUnProcessedSchemaMigrationBasedOnVersionAndType id migrationType w
  = (Ok sm, w') ->
  In sm (ledger w) /\ ID sm = id /\ Processed sm = false
  /\ MigrationType sm = migrationType.
Proof.
  unfold FetchUnProcessedSchemaMigrationBasedOnVersionAndType, dbCall.
  set (f := fun r => (ID r =? id) && unprocessedOfType migrationType r).
  assert (Hbody : forall v : World, ledger v = ledger w ->
            match filter f (ledger v) with
            | [] => (Err ErrNoRows, v)
            | schemaMigration :: _ => (Ok schemaMigration, v)
            end = (Ok sm, w') ->
            In sm (ledger w) /\ ID sm = id /\ Processed sm = false
            /\ MigrationType sm = migrationType).
  { intros v Hl. rewrite Hl.
    destruct (filter f (ledger w)) as [|x rest] eqn:E; [discriminate|].
    intros H; inversion H; subst x.
    assert (Hin : In sm (filter f (ledger w))) by (rewrite E; left; reflexivity).
    apply filter_In in Hin. destruct Hin as (Hin & Hf).
    unfold f, unprocessedOfType in Hf.
    apply andb_true_iff in Hf. destruct Hf as (Hid & Hf).
    apply andb_true_iff in Hf. destruct Hf as (Hp & Ht).
    apply Z.eqb_eq in Hid. apply String.eqb_eq in Ht.
    apply negb_true_iff in Hp. auto. }
  destruct (faults w) as [|[|] fs]; try discriminate; apply Hbody; reflexivity.
Qed.

End Queries.

(* ------------------------------------------------------------------ *)
(** ** The engine and its two batch loops *)

Section Engine.

Context {X : External}.

Ltac run_engine :=
  unfold ApplyMigration, bind, inspect, timeNow, ApplySchemaMigration,
    UpdateSchemaMigration, dbCall, logError, fail, ret.

(** One application leaves either its [EvExec] alone and returns [nil], or
    its [EvExec] and one report and returns the reported error. *)
Lemma ApplyMigration_trace sm w :
  (exists w', ApplyMigration sm w = (Ok tt, w')
              /\ trace w' = (trace w ++ [EvExec (ID sm)])%list)
  \/ (exists w' line e, ApplyMigration sm w = (Err e, w')
              /\ trace w' = (trace w ++ [EvExec (ID sm); EvLog line e])%list).
Proof.
  run_engine. simpl.
  destruct (Exec (target w) (FileContent sm)) as [t'|msg]; simpl;
    destruct (faults w) as [|[|] fs]; simpl;
    try (left; eexists; split; [reflexivity|reflexivity]);
    right; do 3 eexists; (split; [reflexivity|]); simpl;
    rewrite <- app_assoc; reflexivity.
Qed.

Lemma applyEach_fail_fast rows : forall w,
  exists r w' evs,
    applyEach rows w = (r, w')
    /\ trace w' = (trace w ++ evs)%list
    /\ FailFast rows evs r.
Proof.
  induction rows as [|sm rest IH]; intros w; simpl.
  - exists (Ok tt), w, []. rewrite app_nil_r.
    split; [reflexivity|]. split; [reflexivity | constructor].
  - unfold bind at 1.
    destruct (ApplyMigration_trace sm w) as [(w1 & E & T)|(w1 & line & e & E & T)];
      rewrite E.
    + destruct (IH w1) as (r & w' & evs & E' & T' & F).
      exists r, w', (EvExec (ID sm) :: evs).
      split; [exact E'|]. split.
      * rewrite T', T, <- app_assoc. reflexivity.
      * constructor; assumption.
    + exists (Err e), w1, [EvExec (ID sm); EvLog line e].
      split; [reflexivity|]. split; [exact T | apply FailFast_stop].
Qed.

Lemma revertEach_best_effort rows : forall w,
  exists w' evs,
    revertEach rows w = (Ok tt, w')
    /\ trace w' = (trace w ++ evs)%list
    /\ BestEffort rows evs.
Proof.
  induction rows as [|sm rest IH]; intros w; simpl.
  - exists w, []. rewrite app_nil_r.
    split; [reflexivity|]. split; [reflexivity | constructor].
  - unfold inspect at 1.
    destruct (ApplyMigration_trace sm w) as [(w1 & E & T)|(w1 & line & e & E & T)];
      rewrite E.
    + destruct (IH w1) as (w' & evs & E' & T' & B).
      exists w', (EvExec (ID sm) :: evs).
      split; [exact E'|]. split.
      * rewrite T', T, <- app_assoc. reflexivity.
      * constructor; assumption.
    + unfold logError.
      destruct (IH (emit (EvLog "Unable to rever" e) w1)) as (w' & evs & E' & T' & B).
      exists w', (EvExec (ID sm) :: EvLog line e :: EvLog "Unable to rever" e :: evs).
      split; [exact E'|]. split.
      * rewrite T'. simpl. rewrite T, <- !app_assoc. reflexivity.
      * constructor; assumption.
Qed.

Lemma FailFast_executed rows evs r :
  FailFast rows evs r ->
  exists k, executed evs = firstn k (map ID rows)
            /\ (r = Ok tt -> executed evs = map ID rows).
Proof.
  induction 1 as [|sm rest evs r _ (k & IH & IHok)|sm rest line e].
  - exists O. split; auto.
  - exists (S k). simpl. split; [f_equal; assumption|].
    intros Hr. f_equal. auto.
  - exists 1%nat. simpl. split; [reflexivity | discriminate].
Qed.

Lemma BestEffort_executed rows evs :
  BestEffort rows evs -> executed evs = map ID rows.
Proof.
  induction 1; simpl; congruence.
Qed.

Lemma Fetch_rows migrationType order w rows w' :
  FetchUnProcessedSchemaMigrations migrationType order w = (Ok rows, w') ->
  rows = orderRows order (filter (unprocessedOfType migrationType) (ledger w))
  /\ ledger w' = ledger w /\ trace w' = trace w.
Proof.
  unfold FetchUnProcessedSchemaMigrations, dbCall.
  destruct (faults w) as [|[|] fs]; intros H; inversion H; subst; auto;
    discriminate.
Qed.



End Engine.





(* ------------------------------------------------------------------ *)
(** ** The source reader *)

Section Reader.

Context {X : External}.

Lemma ReadFile_world filePath w r w' :
  ReadFile filePath w = (r, w') -> w' = w.
Proof.
  unfold ReadFile.
  destruct (lookupPath _ _) as [[? ?|? ?]|]; intros H; inversion H; reflexivity.
Qed.

(** What a returned [FileDetails] is made of. *)
Lemma GetFileDetails_Ok filePath w d w' :
  GetFileDetails filePath w = (Ok d, w') ->
  exists salt rest digest,
    ReadFile filePath w = (Ok (fdFileContent d), w)
    /\ entropy w = salt :: rest
    /\ bcryptCore salt (fdFileContent d) = Some digest
    /\ fdCheckSum d = "$2a$10$" ++ salt ++ digest
    /\ fdFilePath d = filePath
    /\ keyOf filePath = Some (fdVersion d, fdMigrationType d)
    /\ w' = setEntropy rest w.
Proof.
  unfold GetFileDetails, keyOf, bind.
  destruct (ReadFile filePath w) as [[content| |] w0] eqn:R; try discriminate.
  pose proof (ReadFile_world _ _ _ _ R); subst w0.
  set (parts := Split (last (Split filePath "/") "") ".").
  destruct (negb (length parts =? 3)%nat); [discriminate|].
  destruct (if (nth 1 parts "" =? "up")%string then Some "UPGRADE"
            else if (nth 1 parts "" =? "down")%string then Some "DOWNGRADE"
            else None) as [migrationType|]; [|discriminate].
  set (stem := Split (nth 0 parts "") "__").
  destruct (negb (length stem =? 2)%nat); [discriminate|].
  destruct (sliceFrom1 (nth 0 stem "")) as [versionStr|]; [|discriminate].
  destruct (Atoi versionStr) as [version|]; [|discriminate].
  unfold inspect, GenerateFromPassword, fail, ret.
  destruct (entropy w) as [|salt rest] eqn:En; [discriminate|].
  destruct (bcryptCore salt content) as [digest|] eqn:B; [|discriminate].
  intros H; inversion H; subst; simpl.
  exists salt, rest, digest. repeat split; auto.
Qed.

Lemma setEntropy_same w : setEntropy (entropy w) w = w.
Proof. destruct w; reflexivity. Qed.

(** The reader changes nothing of the world but the entropy it draws. *)
Lemma GetFileDetails_frame filePath w r w' :
  GetFileDetails filePath w = (r, w') -> exists en, w' = setEntropy en w.
Proof.
  assert (Hstay : forall A (o : Outcome A) (o' : Outcome A) w1,
             (o, w) = (o', w1) -> exists en, w1 = setEntropy en w).
  { intros A o o' w1 H. inversion H. exists (entropy w1).
    symmetry. apply setEntropy_same. }
  unfold GetFileDetails, bind.
  destruct (ReadFile filePath w) as [[content| |] w0] eqn:R;
    pose proof (ReadFile_world _ _ _ _ R); subst w0; try apply Hstay.
  destruct (negb (length _ =? 3)%nat); [apply Hstay|].
  destruct (if (_ =? "up")%string then _ else _); [|apply Hstay].
  destruct (negb (length _ =? 2)%nat); [apply Hstay|].
  destruct (sliceFrom1 _); [|apply Hstay].
  destruct (Atoi _); [|apply Hstay].
  unfold inspect, GenerateFromPassword, fail, ret.
  destruct (entropy w) as [|salt rest]; [apply Hstay|].
  destruct (bcryptCore salt content);
    intros H; inversion H; subst; exists rest; reflexivity.
Qed.

(** C4, as the code has it: the fingerprint is a function of the raw content
    and of the salt that [bcrypt] draws; two readable files with
    byte-identical content get equal [CheckSum] values when the two calls
    draw the same salt. *)
Theorem CheckSum_equal_for_equal_content_and_salt p1 p2 w1 w2 d1 d2 w1' w2' :
  GetFileDetails p1 w1 = (Ok d1, w1') ->
  GetFileDetails p2 w2 = (Ok d2, w2') ->
  fst (ReadFile p1 w1) = fst (ReadFile p2 w2) ->
  hd_error (entropy w1) = hd_error (entropy w2) ->
  fdCheckSum d1 = fdCheckSum d2.
Proof.
  intros H1 H2 Hcontent Hsalt.
  apply GetFileDetails_Ok in H1. apply GetFileDetails_Ok in H2.
  destruct H1 as (s1 & r1 & g1 & R1 & E1 & B1 & C1 & _).
  destruct H2 as (s2 & r2 & g2 & R2 & E2 & B2 & C2 & _).
  rewrite R1, R2 in Hcontent. simpl in Hcontent.
  rewrite E1, E2 in Hsalt. simpl in Hsalt.
  inversion Hcontent as [Hc]. inversion Hsalt; subst s2.
  rewrite Hc in B1. rewrite B1 in B2. inversion B2; subst g2.
  rewrite C1, C2. reflexivity.
Qed.

(** C6, as the code has it: a readable file whose name has the three dotted
    segments, a known tag and the two segments around the double underscore,
    and whose version token, after its first byte is dropped, is not accepted
    by [strconv.Atoi], fails with the invalid-file-name error. *)
Theorem GetFileDetails_rejects_version_Atoi_rejects
        filePath w content stem tag ext token description versionStr :
  ReadFile filePath w = (Ok content, w) ->
  Split (last (Split filePath "/") "") "." = [stem; tag; ext] ->
  tag = "up" \/ tag = "down" ->
  Split stem "__" = [token; description] ->
  sliceFrom1 token = Some versionStr ->
  Atoi versionStr = None ->
  GetFileDetails filePath w = (Err (ErrInvalidFileName filePath), w).
Proof.
  intros Hread Hdots Htag Hstem Hslice Hatoi.
  unfold GetFileDetails, bind. rewrite Hread, Hdots. simpl.
  destruct Htag; subst tag; simpl; rewrite Hstem; simpl;
    rewrite Hslice, Hatoi; reflexivity.
Qed.

End Reader.

(* ------------------------------------------------------------------ *)
(** ** The reconciler *)

Section Reconciler.

Context {X : External}.

Lemma Count_spec filePath w r w' :
  CountSchemaMigrationForFilePath filePath w = (r, w') ->
  ledger w' = ledger w /\ disk w' = disk w
  /\ (r = Err ErrConnection \/ r = Ok (countPath filePath (ledger w))).
Proof.
  unfold CountSchemaMigrationForFilePath, dbCall, countPath.
  destruct (faults w) as [|[|] fs]; intros H; inversion H; subst; simpl; auto.
Qed.

Lemma AddSchemaMigration_spec sm w r w' :
  AddSchemaMigration sm w = (r, w') ->
  disk w' = disk w
  /\ ((exists id, r = Ok (withID id sm)
                  /\ ledger w' = (ledger w ++ [withID id sm])%list
                  /\ existsb (sameKey sm) (ledger w) = false)
      \/ ((exists e, r = Err e) /\ ledger w' = ledger w)).
Proof.
  unfold AddSchemaMigration, dbCall.
  assert (Hbody : forall v : World,
    disk v = disk w -> ledger v = ledger w ->
    (if negb (notNullOk sm)
     then (Err (ErrConstraint "not-null"), setNextID (nextID v + 1) v)
     else if existsb (sameKey sm) (ledger (setNextID (nextID v + 1) v))
          then (Err (ErrConstraint "idx_unique_schema_version_migration_type"),
                setNextID (nextID v + 1) v)
          else (Ok (withID (nextID v) sm),
                setLedger (ledger (setNextID (nextID v + 1) v)
                             ++ [withID (nextID v) sm])%list
                          (setNextID (nextID v + 1) v))) = (r, w') ->
    disk w' = disk w
    /\ ((exists id, r = Ok (withID id sm)
                    /\ ledger w' = (ledger w ++ [withID id sm])%list
                    /\ existsb (sameKey sm) (ledger w) = false)
        \/ ((exists e, r = Err e) /\ ledger w' = ledger w))).
  { intros v Hd Hl. simpl. rewrite Hl.
    destruct (negb (notNullOk sm)).
    - intros H; inversion H; subst; simpl. split; [exact Hd|].
      right. split; [eexists; reflexivity | exact Hl].
    - destruct (existsb (sameKey sm) (ledger w)) eqn:Edup.
      + intros H; inversion H; subst; simpl. split; [exact Hd|].
        right. split; [eexists; reflexivity | exact Hl].
      + intros H; inversion H; subst; simpl. split; [exact Hd|].
        left. exists (nextID v). auto. }
  destruct (faults w) as [|[|] fs].
  - apply Hbody; reflexivity.
  - intros H; inversion H; subst; simpl. split; [reflexivity|].
    right. split; [eexists; reflexivity | reflexivity].
  - apply Hbody; reflexivity.
Qed.

(** What [AddEntryToDB] does to the ledger: it appends one unattempted row
    for the path, carrying the key the path parses to, or leaves the ledger
    as it is and returns no row. *)
Lemma AddEntryToDB_spec filePath w r w' :
  AddEntryToDB filePath w = (r, w') ->
  disk w' = disk w
  /\ ((exists row, r = Ok row
         /\ ledger w' = (ledger w ++ [row])%list
         /\ FilePath row = filePath /\ Faithful row
         /\ Processed row = false /\ Success row = false /\ Error row = ""
         /\ existsb (hasKey (Version row, MigrationType row)) (ledger w) = false)
      \/ ((forall row, r <> Ok row) /\ ledger w' = ledger w
          /\ (r = Panic \/ exists e, r = Err e))).
Proof.
  unfold AddEntryToDB, bind at 1.
  destruct (GetFileDetails filePath w) as [[d|e|] w0] eqn:G;
    pose proof (GetFileDetails_frame _ _ _ _ G) as (en & Hw0).
  - apply GetFileDetails_Ok in G.
    destruct G as (salt & rest & digest & _ & _ & _ & _ & Hp & Hk & _).
    unfold bind, timeNow.
    intros H. apply AddSchemaMigration_spec in H.
    destruct H as (Hd & [(id & Hr & Hl & Hdup)|((e & Hr) & Hl)]).
    + subst w0; simpl in *. split; [exact Hd|]. left.
      eexists. split; [exact Hr|]. split; [exact Hl|].
      unfold Faithful. simpl. rewrite Hp.
      repeat split; auto.
    + subst w0; simpl in *. split; [exact Hd|]. right.
      subst r. split; [discriminate|]. split; [exact Hl|].
      right; eexists; reflexivity.
  - intros H; inversion H; subst; simpl. split; [reflexivity|]. right.
    split; [discriminate|]. split; [reflexivity|]. right; eexists; reflexivity.
  - intros H; inversion H; subst; simpl. split; [reflexivity|]. right.
    split; [discriminate|]. split; [reflexivity|]. left; reflexivity.
Qed.

Lemma countPath_app filePath l row :
  countPath filePath (l ++ [row])
  = countPath filePath l + (if (FilePath row =? filePath)%string then 1 else 0).
Proof.
  unfold countPath. rewrite filter_app, length_app. simpl.
  destruct (FilePath row =? filePath)%string; simpl; lia.
Qed.

Lemma hasKey_own row : hasKey (Version row, MigrationType row) row = true.
Proof.
  unfold hasKey. simpl. rewrite Z.eqb_refl, String.eqb_refl. reflexivity.
Qed.

Lemma Settled_grow l row filePath :
  Faithful row -> Settled l filePath -> Settled (l ++ [row]) filePath.
Proof.
  intros Hf [Hone|(k & Hk & Hin)].
  - destruct (FilePath row =? filePath)%string eqn:E.
    + apply String.eqb_eq in E. right.
      exists (Version row, MigrationType row). split.
      * rewrite <- E. exact Hf.
      * rewrite existsb_app. simpl. rewrite hasKey_own.
        rewrite orb_true_r. reflexivity.
    + left. rewrite countPath_app, E. lia.
  - right. exists k. split; [exact Hk|].
    rewrite existsb_app, Hin. reflexivity.
Qed.

Lemma Settled_own l row :
  Faithful row -> Settled (l ++ [row]) (FilePath row).
Proof.
  intros Hf. right. exists (Version row, MigrationType row). split; [exact Hf|].
  rewrite existsb_app. simpl. rewrite hasKey_own, orb_true_r. reflexivity.
Qed.

(** A run of the loop that returns [nil] leaves every path it went through
    settled, and keeps settled what was. *)
Lemma registerEach_settles root files : forall w w',
  registerEach root files w = (Ok tt, w') ->
  disk w' = disk w
  /\ (forall p, Settled (ledger w) p -> Settled (ledger w') p)
  /\ (forall p, In p files -> p <> root -> Settled (ledger w') p).
Proof.
  induction files as [|filePath rest IH]; intros w w'; simpl.
  - intros H; inversion H; subst. repeat split; auto. intros p [].
  - destruct (filePath =? root)%string eqn:Eroot.
    + apply String.eqb_eq in Eroot. intros H.
      destruct (IH _ _ H) as (Hd & Hkeep & Hall).
      split; [exact Hd|]. split; [exact Hkeep|].
      intros p [Hp|Hp] Hne; [congruence | auto].
    + unfold inspect at 1.
      destruct (CountSchemaMigrationForFilePath filePath w) as [[c|e|] w0] eqn:C;
        destruct (Count_spec _ _ _ _ C) as (Hl0 & Hd0 & Hc);
        try (unfold logError, fail; discriminate).
      destruct Hc as [Hc|Hc]; [discriminate|]. inversion Hc; subst c.
      destruct (countPath filePath (ledger w) =? 1) eqn:Eone.
      * apply Z.eqb_eq in Eone. intros H.
        destruct (IH _ _ H) as (Hd & Hkeep & Hall).
        rewrite Hl0 in Hkeep.
        split; [congruence|]. split; [exact Hkeep|].
        intros p [Hp|Hp] Hne; [|auto].
        subst p. apply Hkeep. left. exact Eone.
      * unfold inspect at 1.
        destruct (AddEntryToDB filePath w0) as [[row|e|] w1] eqn:A;
          try (unfold logError, fail; discriminate).
        destruct (AddEntryToDB_spec _ _ _ _ A)
          as (Hd1 & [(row' & Hr & Hl1 & Hp & Hf & _)|(Hno & _)]);
          [|exfalso; eapply Hno; reflexivity].
        inversion Hr; subst row'. intros H.
        destruct (IH _ _ H) as (Hd & Hkeep & Hall).
        rewrite Hl1, Hl0 in Hkeep.
        split; [congruence|]. split.
        -- intros p Hs. apply Hkeep. apply Settled_grow; assumption.
        -- intros p [Hq|Hq] Hne; [|auto].
           subst p. apply Hkeep. rewrite <- Hp. apply Settled_own. exact Hf.
Qed.

(** Over settled paths the loop inserts nothing, whatever it returns. *)
Lemma registerEach_settled_inserts_nothing root files : forall w,
  (forall p, In p files -> p <> root -> Settled (ledger w) p) ->
  ledger (snd (registerEach root files w)) = ledger w.
Proof.
  induction files as [|filePath rest IH]; intros w Hs; simpl.
  - reflexivity.
  - destruct (filePath =? root)%string eqn:Eroot.
    + apply IH. intros p Hp. apply Hs. right; exact Hp.
    + apply String.eqb_neq in Eroot.
      unfold inspect at 1.
      destruct (CountSchemaMigrationForFilePath filePath w) as [[c|e|] w0] eqn:C;
        destruct (Count_spec _ _ _ _ C) as (Hl0 & Hd0 & Hc);
        try (unfold logError, fail; simpl; exact Hl0).
      destruct Hc as [Hc|Hc]; [discriminate|]. inversion Hc; subst c.
      destruct (countPath filePath (ledger w) =? 1) eqn:Eone.
      * rewrite <- Hl0. apply IH. rewrite Hl0.
        intros p Hp. apply Hs. right; exact Hp.
      * apply Z.eqb_neq in Eone.
        destruct (Hs filePath (or_introl eq_refl) Eroot)
          as [Hone|(k & Hk & Hin)]; [contradiction|].
        unfold inspect at 1.
        destruct (AddEntryToDB filePath w0) as [r w1] eqn:A.
        destruct (AddEntryToDB_spec _ _ _ _ A)
          as (Hd1 & [(row & Hr & Hl1 & Hp & Hf & _ & _ & _ & Hfree)
                    |(Hno & Hl1 & [Hr|(e & Hr)])]); subst r.
        -- exfalso. unfold Faithful in Hf. rewrite Hp, Hk in Hf.
           inversion Hf; subst k. rewrite Hl0, Hin in Hfree. discriminate.
        -- simpl. congruence.
        -- unfold logError, fail. simpl. congruence.
Qed.

Lemma Walk_spec root w r w' :
  Walk root w = (r, w') ->
  w' = w /\ (r = Err (ErrIO root) \/ r = Ok (map fst (walk root (disk w)))).
Proof.
  unfold Walk. destruct (root =? nodeName (disk w))%string;
    intros H; inversion H; subst; auto.
Qed.

Lemma countPath_nonneg filePath l : 0 <= countPath filePath l.
Proof. unfold countPath. lia. Qed.

Lemma registerEach_keeps_one root files : forall w w' p,
  registerEach root files w = (Ok tt, w') ->
  countPath p (ledger w) = 1 -> countPath p (ledger w') = 1.
Proof.
  induction files as [|filePath rest IH]; intros w w' p; simpl.
  - intros H; inversion H; subst; auto.
  - destruct (filePath =? root)%string; [apply IH|].
    unfold inspect at 1.
    destruct (CountSchemaMigrationForFilePath filePath w) as [[c|e|] w0] eqn:C;
      destruct (Count_spec _ _ _ _ C) as (Hl0 & Hd0 & Hc);
      try (unfold logError, fail; discriminate).
    destruct Hc as [Hc|Hc]; [discriminate|]. inversion Hc; subst c.
    destruct (countPath filePath (ledger w) =? 1) eqn:Eone.
    + intros H Hp. eapply IH; [exact H | congruence].
    + apply Z.eqb_neq in Eone. unfold inspect at 1.
      destruct (AddEntryToDB filePath w0) as [[row|e|] w1] eqn:A;
        try (unfold logError, fail; discriminate).
      destruct (AddEntryToDB_spec _ _ _ _ A)
        as (Hd1 & [(row' & Hr & Hl1 & Hp & _)|(Hno & _)]);
        [|exfalso; eapply Hno; reflexivity].
      inversion Hr; subst row'. intros H Hone.
      eapply IH; [exact H|].
      rewrite Hl1, Hl0, countPath_app, Hp.
      destruct (filePath =? p)%string eqn:E; [|lia].
      apply String.eqb_eq in E. congruence.
Qed.

(** From a ledger with at most one row for each of the paths, a run of the
    loop that returns [nil] leaves each of them with exactly one row. *)
Lemma registerEach_registers_once root files : forall w w',
  registerEach root files w = (Ok tt, w') ->
  (forall p, In p files -> countPath p (ledger w) <= 1) ->
  forall p, In p files -> p <> root -> countPath p (ledger w') = 1.
Proof.
  induction files as [|filePath rest IH]; intros w w'; simpl.
  - intros _ _ p [].
  - destruct (filePath =? root)%string eqn:Eroot.
    + apply String.eqb_eq in Eroot. intros H Hle p [Hp|Hp] Hne;
        [congruence | eapply IH; eauto].
    + unfold inspect at 1.
      destruct (CountSchemaMigrationForFilePath filePath w) as [[c|e|] w0] eqn:C;
        destruct (Count_spec _ _ _ _ C) as (Hl0 & Hd0 & Hc);
        try (unfold logError, fail; discriminate).
      destruct Hc as [Hc|Hc]; [discriminate|]. inversion Hc; subst c.
      destruct (countPath filePath (ledger w) =? 1) eqn:Eone.
      * apply Z.eqb_eq in Eone. intros H Hle p [Hp|Hp] Hne.
        -- subst p. eapply registerEach_keeps_one; [exact H | congruence].
        -- eapply IH; eauto. intros q Hq. rewrite Hl0. auto.
      * apply Z.eqb_neq in Eone. unfold inspect at 1.
        destruct (AddEntryToDB filePath w0) as [[row|e|] w1] eqn:A;
          try (unfold logError, fail; discriminate).
        destruct (AddEntryToDB_spec _ _ _ _ A)
          as (Hd1 & [(row' & Hr & Hl1 & Hp & _)|(Hno & _)]);
          [|exfalso; eapply Hno; reflexivity].
        inversion Hr; subst row'. intros H Hle.
        assert (Hzero : countPath filePath (ledger w) = 0).
        { pose proof (Hle filePath (or_introl eq_refl)).
          pose proof (countPath_nonneg filePath (ledger w)). lia. }
        intros p [Hq|Hq] Hne.
        -- subst p. eapply registerEach_keeps_one; [exact H|].
           rewrite Hl1, Hl0, countPath_app, Hp, String.eqb_refl. lia.
        -- eapply IH; eauto. intros q Hq'.
           rewrite Hl1, Hl0, countPath_app, Hp.
           destruct (filePath =? q)%string eqn:E.
           ++ apply String.eqb_eq in E. subst q. lia.
           ++ pose proof (Hle q (or_intror Hq')). lia.
Qed.

(** Over paths that each have their one row, and on a connection that does
    not fail, the loop skips everything and returns [nil]. *)
Lemma registerEach_skips_registered root files : forall w,
  faults w = [] ->
  (forall p, In p files -> p <> root -> countPath p (ledger w) = 1) ->
  registerEach root files w = (Ok tt, w).
Proof.
  induction files as [|filePath rest IH]; intros w Hf Hall; simpl.
  - reflexivity.
  - destruct (filePath =? root)%string eqn:Eroot.
    + apply IH; auto. intros p Hp. apply Hall. right; exact Hp.
    + apply String.eqb_neq in Eroot.
      unfold inspect, CountSchemaMigrationForFilePath, dbCall. rewrite Hf.
      fold (countPath filePath (ledger w)).
      rewrite (Hall filePath (or_introl eq_refl) Eroot). simpl.
      apply IH; auto. intros p Hp. apply Hall. right; exact Hp.
Qed.

(** C8: once a reconciliation of the directory has returned [nil], any later
    reconciliation of the same directory over the resulting ledger inserts no
    record, whatever the connection and the salts do; a path whose count is
    one is passed over by the loop without a read or an insert; and from a
    ledger with at most one row per path, each file ends with exactly one
    row and the second run, on a reliable connection, returns [nil] and
    leaves the world as it is. *)
Theorem reconciling_twice_registers_once root w w1 :
  AddNewSchemaMigrations root w = (Ok tt, w1) ->
  (forall w2, disk w2 = disk w1 -> ledger w2 = ledger w1 ->
     ledger (snd (AddNewSchemaMigrations root w2)) = ledger w2)
  /\ (forall filePath rest v v',
        filePath <> root ->
        CountSchemaMigrationForFilePath filePath v = (Ok 1, v') ->
        registerEach root (filePath :: rest) v = registerEach root rest v')
  /\ ((forall p, countPath p (ledger w) <= 1) ->
      (forall p, In p (map fst (walk root (disk w))) -> p <> root ->
         countPath p (ledger w1) = 1)
      /\ (forall w2, disk w2 = disk w1 -> ledger w2 = ledger w1 ->
            faults w2 = [] ->
            AddNewSchemaMigrations root w2 = (Ok tt, w2))).
Proof.
  unfold AddNewSchemaMigrations, inspect at 1.
  destruct (Walk root w) as [[files|e|] w0] eqn:Hwalk;
    try (unfold logError, fail; discriminate).
  destruct (Walk_spec _ _ _ _ Hwalk) as (-> & [Hr|Hr]); [discriminate|].
  inversion Hr; subst files.
  assert (Hroot : (root =? nodeName (disk w))%string = true).
  { unfold Walk in Hwalk. destruct (root =? nodeName (disk w))%string;
      [reflexivity | discriminate]. }
  intros Hfirst.
  destruct (registerEach_settles _ _ _ _ Hfirst) as (Hdisk & _ & Hsettled).
  split; [|split].
  - intros w2 Hd2 Hl2. unfold inspect, Walk.
    rewrite Hd2, Hdisk, Hroot.
    apply registerEach_settled_inserts_nothing.
    rewrite Hl2. exact Hsettled.
  - intros filePath rest v v' Hne Hcount. simpl.
    apply String.eqb_neq in Hne. rewrite Hne.
    unfold inspect. rewrite Hcount. reflexivity.
  - intros Hle.
    assert (Honce : forall p, In p (map fst (walk root (disk w))) -> p <> root ->
                              countPath p (ledger w1) = 1).
    { eapply registerEach_registers_once; [exact Hfirst|]. intros; apply Hle. }
    split; [exact Honce|].
    intros w2 Hd2 Hl2 Hf2. unfold inspect, Walk.
    rewrite Hd2, Hdisk, Hroot.
    apply registerEach_skips_registered; [exact Hf2|].
    rewrite Hl2. exact Honce.
Qed.

End Reconciler.

(* ------------------------------------------------------------------ *)
(** ** The ledger invariant *)

Section Invariant.

Context {X : External}.

Lemma Preserves_ret A (a : A) : Preserves (ret a).
Proof. intros w H; exact H. Qed.

Lemma Preserves_fail A e : Preserves (@fail X A e).
Proof. intros w H; exact H. Qed.

Lemma Preserves_bind A B (m : M A) (k : A -> M B) :
  Preserves m -> (forall a, Preserves (k a)) -> Preserves (bind m k).
Proof.
  intros Hm Hk w H. unfold bind. specialize (Hm w H).
  destruct (m w) as [[a|e|] w1]; simpl in *;
    [apply Hk; assumption | assumption | assumption].
Qed.

Lemma Preserves_inspect A B (m : M A) (k : A + error -> M B) :
  Preserves m -> (forall a, Preserves (k a)) -> Preserves (inspect m k).
Proof.
  intros Hm Hk w H. unfold inspect. specialize (Hm w H).
  destruct (m w) as [[a|e|] w1]; simpl in *;
    [apply Hk; assumption | apply Hk; assumption | assumption].
Qed.

Lemma Preserves_logError A line e (k : M A) :
  Preserves k -> Preserves (logError line e k).
Proof. intros Hk w H. unfold logError. apply Hk. exact H. Qed.

Lemma Preserves_emit e : Preserves (fun w => (Ok tt, emit e w)).
Proof. intros w H; exact H. Qed.

Lemma Preserves_dbCall A (k : M A) : Preserves k -> Preserves (dbCall k).
Proof.
  intros Hk w H. unfold dbCall.
  destruct (faults w) as [|[|] fs]; [apply Hk | | apply Hk]; exact H.
Qed.

(** A statement that only reads. *)
Lemma Preserves_query A (q : World -> Outcome A) :
  Preserves (dbCall (fun w => (q w, w))).
Proof. apply Preserves_dbCall. intros w H; exact H. Qed.

Lemma Preserves_Count filePath : Preserves (CountSchemaMigrationForFilePath filePath).
Proof. apply Preserves_query. Qed.

Lemma Preserves_Fetch migrationType order :
  Preserves (FetchUnProcessedSchemaMigrations migrationType order).
Proof. apply Preserves_query. Qed.

Lemma Preserves_FetchOne id migrationType :
  Preserves (FetchUnProcessedSchemaMigrationBasedOnVersionAndType id migrationType).
Proof.
  apply Preserves_dbCall. intros w H.
  destruct (filter _ _); exact H.
Qed.

Lemma Preserves_GetCurrentVersion : Preserves GetCurrentVersion.
Proof.
  apply Preserves_dbCall. intros w H.
  destruct (sortBy _ _); exact H.
Qed.

(** An update that sets [processed] to [true] cannot break the invariant. *)
Lemma Preserves_Update id executionTime success e :
  Preserves (UpdateSchemaMigration id executionTime true success e).
Proof.
  apply Preserves_dbCall. intros w H. simpl.
  unfold LedgerInv in *. rewrite Forall_forall in *.
  intros row Hin. apply in_map_iff in Hin. destruct Hin as (r & Hr & Hin).
  destruct (ID r =? id); subst row; [|auto].
  intros Hp; simpl in Hp; discriminate.
Qed.

Lemma Preserves_ApplySchemaMigration sm : Preserves (ApplySchemaMigration sm).
Proof.
  intros w H. unfold ApplySchemaMigration. simpl.
  destruct (Exec (target w) (FileContent sm)); exact H.
Qed.

Lemma Preserves_ApplyMigration sm : Preserves (ApplyMigration sm).
Proof.
  unfold ApplyMigration, timeNow.
  apply Preserves_bind; [intros w H; exact H|]. intros start.
  apply Preserves_inspect; [apply Preserves_ApplySchemaMigration|].
  intros applied.
  apply Preserves_bind; [intros w H; exact H|]. intros end_.
  destruct applied as [_|err].
  - apply Preserves_inspect; [apply Preserves_Update|].
    intros [_|err]; [apply Preserves_ret|].
    apply Preserves_logError, Preserves_fail.
  - apply Preserves_inspect; [apply Preserves_Update|].
    intros _. apply Preserves_logError, Preserves_fail.
Qed.

(** The reconciler appends unattempted rows only. *)
Lemma Preserves_AddEntryToDB filePath : Preserves (AddEntryToDB filePath).
Proof.
  intros w H.
  destruct (AddEntryToDB filePath w) as [r w'] eqn:A. simpl.
  destruct (AddEntryToDB_spec _ _ _ _ A)
    as (_ & [(row & _ & Hl & _ & _ & Hp & Hs & He & _)|(_ & Hl & _)]);
    rewrite Hl; [|exact H].
  apply Forall_app. split; [exact H|].
  constructor; [|constructor]. intros _. auto.
Qed.

Lemma Preserves_registerEach root files : Preserves (registerEach root files).
Proof.
  induction files as [|filePath rest IH]; simpl; [apply Preserves_ret|].
  destruct (filePath =? root)%string; [exact IH|].
  apply Preserves_inspect; [apply Preserves_Count|].
  intros [count|err]; [|apply Preserves_logError, Preserves_fail].
  destruct (count =? 1); [exact IH|].
  apply Preserves_inspect; [apply Preserves_AddEntryToDB|].
  intros [_|err]; [exact IH | apply Preserves_logError, Preserves_fail].
Qed.

Lemma Preserves_AddNewSchemaMigrations root :
  Preserves (AddNewSchemaMigrations root).
Proof.
  apply Preserves_inspect.
  - intros w H. unfold Walk. destruct (root =? _)%string; exact H.
  - intros [files|err]; [apply Preserves_registerEach|].
    apply Preserves_logError, Preserves_fail.
Qed.

Lemma Preserves_applyEach rows : Preserves (applyEach rows).
Proof.
  induction rows as [|sm rest IH]; simpl; [apply Preserves_ret|].
  apply Preserves_bind; [apply Preserves_ApplyMigration | intros _; exact IH].
Qed.

Lemma Preserves_revertEach rows : Preserves (revertEach rows).
Proof.
  induction rows as [|sm rest IH]; simpl; [apply Preserves_ret|].
  apply Preserves_inspect; [apply Preserves_ApplyMigration|].
  intros [_|err]; [exact IH | apply Preserves_logError; exact IH].
Qed.

Lemma Preserves_main conf : Preserves (main conf).
Proof.
  unfold main.
  destruct (Command conf =? "version")%string.
  { apply Preserves_inspect; [apply Preserves_GetCurrentVersion|].
    intros [latest|err];
      [apply Preserves_emit | apply Preserves_logError, Preserves_ret]. }
  destruct (Command conf =? "up")%string.
  { apply Preserves_inspect.
    - apply Preserves_bind; [apply Preserves_AddNewSchemaMigrations|].
      intros _. apply Preserves_bind; [apply Preserves_Fetch|].
      intros rows. apply Preserves_applyEach.
    - intros [_|err]; [apply Preserves_ret|].
      apply Preserves_logError, Preserves_ret. }
  destruct (Command conf =? "down")%string.
  { apply Preserves_inspect; [apply Preserves_GetCurrentVersion|].
    intros [latest|err]; [|apply Preserves_logError, Preserves_emit].
    apply Preserves_inspect.
    - apply Preserves_bind; [apply Preserves_FetchOne|].
      intros sm. apply Preserves_ApplyMigration.
    - intros [_|err]; [apply Preserves_ret|].
      apply Preserves_logError, Preserves_ret. }
  destruct (Command conf =? "reset")%string.
  { apply Preserves_inspect; [apply Preserves_Fetch|].
    intros [rows|err]; [apply Preserves_revertEach|].
    apply Preserves_logError, (Preserves_revertEach []). }
  apply Preserves_ret.
Qed.

Lemma Reachable_LedgerInv w : Reachable w -> LedgerInv (ledger w).
Proof.
  induction 1 as [w Hnil|conf w _ IH|w w' _ IH Hl].
  - rewrite Hnil. constructor.
  - apply Preserves_main. exact IH.
  - rewrite Hl. exact IH.
Qed.

Ltac run_apply :=
  unfold ApplyMigration, bind, inspect, timeNow, ApplySchemaMigration,
    UpdateSchemaMigration, dbCall, logError, fail, ret; simpl.

Lemma In_marked id executionTime success e l row :
  In row (map (fun r => if ID r =? id
                        then updateRow executionTime true success e r
                        else r) l) ->
  In row l \/ (ID row = id /\ Processed row = true).
Proof.
  intros Hin. apply in_map_iff in Hin. destruct Hin as (r0 & Hr & Hin).
  destruct (ID r0 =? id) eqn:E; subst row.
  - right. simpl. split; [apply Z.eqb_eq; exact E | reflexivity].
  - left. exact Hin.
Qed.

(** The engine writes a row only to set [processed] to [true]. *)
Lemma ApplyMigration_marks sm w r w' :
  ApplyMigration sm w = (r, w') ->
  forall row, In row (ledger w') ->
    In row (ledger w) \/ (ID row = ID sm /\ Processed row = true).
Proof.
  run_apply.
  destruct (Exec (target w) (FileContent sm)) as [t'|msg]; simpl;
    destruct (faults w) as [|[|] fs]; simpl;
    intros H; inversion H; subst; simpl; intros row Hin;
    first [left; exact Hin | apply In_marked in Hin; exact Hin].
Qed.

(** A failed batch: the error of the batch is returned whether or not the
    ledger write goes through; when it does, the row of the record is marked
    processed, not succeeded, with the error text; when it does not, the
    ledger is as before. *)
Lemma ApplyMigration_failure sm w message :
  Exec (target w) (FileContent sm) = inr message ->
  exists w',
    ApplyMigration sm w = (Err (ErrExec message), w')
    /\ (hd false (faults w) = true -> ledger w' = ledger w)
    /\ (hd false (faults w) = false ->
        exists executionTime,
          ledger w'
          = map (fun r => if ID r =? ID sm
                          then updateRow executionTime true false message r
                          else r) (ledger w)).
Proof.
  intros HE. run_apply. rewrite HE. simpl.
  destruct (faults w) as [|[|] fs]; simpl; eexists;
    (split; [reflexivity|]); split; intros Hf; try discriminate;
    try reflexivity; eexists; reflexivity.
Qed.

(** C10: in every reachable world a row with [processed = false] has
    [success = false] and an empty error.  The reconciler's rows are created
    unattempted; the engine writes a row only to set [processed] to [true];
    and when the batch of a record fails, [ApplyMigration] returns the error
    of the batch whether or not the ledger write goes through: if it does,
    the row of the record is processed, not succeeded, and carries the error
    text, and if it does not, the ledger is as before. *)
Theorem unattempted_rows_are_neither_succeeded_nor_failed w :
  Reachable w ->
  LedgerInv (ledger w)
  /\ (forall conf, LedgerInv (ledger (snd (main conf w))))
  /\ (forall filePath row w',
        AddEntryToDB filePath w = (Ok row, w') ->
        Processed row = false /\ Success row = false /\ Error row = ""
        /\ ledger w' = (ledger w ++ [row])%list)
  /\ (forall sm r w',
        ApplyMigration sm w = (r, w') ->
        forall row, In row (ledger w') ->
          In row (ledger w) \/ (ID row = ID sm /\ Processed row = true))
  /\ (forall sm message,
        Exec (target w) (FileContent sm) = inr message ->
        fst (ApplyMigration sm w) = Err (ErrExec message)
        /\ (hd false (faults w) = true ->
            ledger (snd (ApplyMigration sm w)) = ledger w)
        /\ (hd false (faults w) = false ->
            length (ledger (snd (ApplyMigration sm w))) = length (ledger w)
            /\ forall row,
                 In row (ledger (snd (ApplyMigration sm w))) ->
                 ID row = ID sm ->
                 Processed row = true /\ Success row = false
                 /\ Error row = message)).
Proof.
  intros Hreach. pose proof (Reachable_LedgerInv _ Hreach) as Hinv.
  split; [exact Hinv|].
  split; [intros conf; apply Preserves_main; exact Hinv|].
  split.
  { intros filePath row w' A.
    destruct (AddEntryToDB_spec _ _ _ _ A)
      as (_ & [(row' & Hr & Hl & _ & _ & Hp & Hs & He & _)|(Hno & _)]);
      [|exfalso; eapply Hno; reflexivity].
    inversion Hr; subst row'. auto. }
  split; [intros sm r w'; apply ApplyMigration_marks|].
  intros sm message HE.
  destruct (ApplyMigration_failure _ _ _ HE) as (w' & HA & Hfault & Hwrite).
  rewrite HA. simpl. split; [reflexivity|]. split; [exact Hfault|].
  intros Hf. destruct (Hwrite Hf) as (et & Hl). rewrite Hl.
  split; [apply length_map|].
  intros row Hin Hid. apply in_map_iff in Hin. destruct Hin as (r0 & Hr & Hin).
  destruct (ID r0 =? ID sm) eqn:E; subst row; simpl; auto.
  apply Z.eqb_neq in E. contradiction.
Qed.

End Invariant.


(** C4 fails as stated: the same file read twice in a row gets two different
    [CheckSum] values, because each call draws its own salt. *)
Lemma CheckSum_differs_between_two_runs :
  exists d1 w1 d2 w2,
    GetFileDetails "sql/V1__init.up.sql" ReaderSample.once = (Ok d1, w1)
    /\ GetFileDetails "sql/V1__init.up.sql" w1 = (Ok d2, w2)
    /\ fdFileContent d1 = fdFileContent d2
    /\ fdCheckSum d1 <> fdCheckSum d2.
Proof.
  vm_compute. do 4 eexists.
  split; [reflexivity|]. split; [reflexivity|]. split; [reflexivity|].
  simpl. discriminate.
Qed.

(** C4, as the code has it, at two files with the same content read with the
    same salt. *)
Lemma CheckSum_equal_for_equal_content_and_salt_witness :
  fst (ReadFile "sql/V1__init.up.sql" ReaderSample.once)
  = fst (ReadFile "sql/V2__copy.up.sql" ReaderSample.copy)
  /\ hd_error (entropy ReaderSample.once) = hd_error (entropy ReaderSample.copy)
  /\ fdCheckSum (mkFileDetails 1 "init" "UPGRADE" "sql/V1__init.up.sql"
                   ReaderSample.createOrgs "$2a$10$saltACREATE TABLE orgs ()")
     = fdCheckSum (mkFileDetails 2 "copy" "UPGRADE" "sql/V2__copy.up.sql"
                     ReaderSample.createOrgs "$2a$10$saltACREATE TABLE orgs ()").
Proof.
  split; [reflexivity|]. split; [reflexivity|].
  apply (@CheckSum_equal_for_equal_content_and_salt Sample.external
           "sql/V1__init.up.sql" "sql/V2__copy.up.sql"
           ReaderSample.once ReaderSample.copy _ _
           (setEntropy (tl Sample.salts) ReaderSample.once)
           (setEntropy (tl Sample.salts) ReaderSample.copy));
    vm_compute; reflexivity.
Defined.

(** C6 fails as stated: the token [V-7] gives the version string [-7], which
    is no non-negative integer, and the reader returns a [FileDetails] with
    version [-7]. *)
Lemma negative_version_is_accepted :
  sliceFrom1 "V-7" = Some "-7"
  /\ nonNegativeInteger "-7" = false
  /\ exists d w',
       GetFileDetails "sql/V-7__neg.up.sql" ReaderSample.negative = (Ok d, w')
       /\ fdVersion d = -7.
Proof.
  split; [reflexivity|]. split; [reflexivity|].
  vm_compute. do 2 eexists. split; reflexivity.
Qed.

(** C6, as the code has it, at the version token [Vx1]. *)
Lemma GetFileDetails_rejects_version_Atoi_rejects_witness :
  GetFileDetails "sql/Vx1__init.up.sql" ReaderSample.letters
  = (Err (ErrInvalidFileName "sql/Vx1__init.up.sql"), ReaderSample.letters).
Proof.
  apply (@GetFileDetails_rejects_version_Atoi_rejects Sample.external
           "sql/Vx1__init.up.sql" ReaderSample.letters ReaderSample.createOrgs
           "Vx1__init" "up" "sql" "Vx1" "init" "x1");
    try reflexivity.
  left; reflexivity.
Defined.

(** C7: a readable file whose name starts with the double underscore makes
    [GetFileDetails] panic at [fileStrs[0][1:]]; the panic unwinds through
    the whole [up] command. *)
Theorem GetFileDetails_panics_on_empty_version_token :
  ReadFile "sql/__x.up.sql" ReaderSample.noVersion
  = (Ok ReaderSample.createOrgs, ReaderSample.noVersion)
  /\ Split "__x" "__" = [""; "x"]
  /\ GetFileDetails "sql/__x.up.sql" ReaderSample.noVersion
     = (Panic, ReaderSample.noVersion)
  /\ fst (main (Sample.conf "up") ReaderSample.noVersion) = Panic.
Proof.
  repeat split; vm_compute; reflexivity.
Qed.

(* ------------------------------------------------------------------ *)
(** ** The version query, the down command and the directory walk on the
       sample installation *)


(** C1: after an [up] whose second file fails, the target holds the first
    batch only and the ledger has a succeeded UPGRADE record (version 1), yet
    [GetCurrentVersion] returns the failed record of version 2: its query
    filters on [processed], not on [success]. *)
Theorem GetCurrentVersion_returns_failed_upgrade :
  target CommandSample.afterBrokenUp = ["CREATE TABLE orgs ()"]
  /\ (exists r, In r (ledger CommandSample.afterBrokenUp)
                /\ Version r = 1 /\ MigrationType r = "UPGRADE"
                /\ Success r = true)
  /\ exists sm w',
       GetCurrentVersion CommandSample.afterBrokenUp = (Ok sm, w')
       /\ Version sm = 2 /\ MigrationType sm = "UPGRADE"
       /\ Processed sm = true /\ Success sm = false.
Proof.
  split; [reflexivity|]. split.
  - vm_compute. eexists. split; [left; reflexivity|]. repeat split.
  - vm_compute. do 2 eexists. repeat split.
Qed.

(** C2: [revertMigration] hands the current version to a query on the [id]
    column.  With two versions on disk the current version is 2, the
    outstanding DOWNGRADE record of version 2 has id 3, and the command ends
    in [ErrNoRows]; with three versions the current version is 3 and the
    record fetched and applied is the one with id 3, the DOWNGRADE of
    version 2, while the DOWNGRADE of version 3 stays outstanding. *)
Theorem down_looks_up_the_version_in_the_id_column :
  (exists cur w1 r,
      GetCurrentVersion CommandSample.afterUp2 = (Ok cur, w1)
      /\ Version cur = 2
      /\ In r (ledger CommandSample.afterUp2)
      /\ Version r = 2 /\ unprocessedOfType "DOWNGRADE" r = true
      /\ fst (revertMigration (Version cur) CommandSample.afterUp2) = Err ErrNoRows)
  /\ (exists cur w1 sm w2,
      GetCurrentVersion CommandSample.afterUp3 = (Ok cur, w1)
      /\ Version cur = 3
      /\ FetchUnProcessedSchemaMigrationBasedOnVersionAndType
           (Version cur) "DOWNGRADE" CommandSample.afterUp3 = (Ok sm, w2)
      /\ ID sm = 3 /\ Version sm = 2
      /\ target (Sample.run downgradeMigration CommandSample.afterUp3)
         = ["CREATE TABLE a ()"; "CREATE TABLE b ()"; "CREATE TABLE c ()";
            "DROP TABLE b"]
      /\ map (fun r => (Version r, Processed r))
             (filter (fun r => (MigrationType r =? "DOWNGRADE")%string)
                     (ledger (Sample.run downgradeMigration CommandSample.afterUp3)))
         = [(1, false); (2, true); (3, false)]).
Proof.
  split.
  - vm_compute. do 3 eexists. split; [reflexivity|]. split; [reflexivity|].
    split; [right; right; left; reflexivity|]. repeat split.
  - vm_compute. do 4 eexists. repeat split.
Qed.

(** C5: a subdirectory is not skipped.  The walk of the sample tree shows the
    root, the subdirectory and the file in it; the loop passes over the root
    only, hands the subdirectory to [AddEntryToDB], whose read fails, and the
    reconciliation ends there with that error, before the regular file below
    is looked at: nothing is registered. *)
Theorem AddNewSchemaMigrations_stops_at_a_subdirectory :
  map (fun e => (fst e, isDir (snd e))) (walk "sql" Sample.nested)
  = [("sql", true); ("sql/2020", true); ("sql/2020/V1__init.up.sql", false)]
  /\ fst (GetFileDetails "sql/2020" (Sample.fresh Sample.nested Sample.salts))
     = Err (ErrIO "sql/2020")
  /\ fst (AddNewSchemaMigrations "sql" (Sample.fresh Sample.nested Sample.salts))
     = Err (ErrIO "sql/2020")
  /\ trace (Sample.run (AddNewSchemaMigrations "sql")
                       (Sample.fresh Sample.nested Sample.salts))
     = [EvLog "Error will processing" (ErrIO "sql/2020")]
  /\ ledger (Sample.run (AddNewSchemaMigrations "sql")
                        (Sample.fresh Sample.nested Sample.salts)) = [].
Proof.
  repeat split; vm_compute; reflexivity.
Qed.

(* ------------------------------------------------------------------ *)
(** ** Reconciliation and the invariant on the sample installation *)


(** C8 at a directory of two versions, each with its two files. *)
Lemma reconciling_twice_registers_once_witness :
  (forall w2 : @World Sample.external, disk w2 = disk ReconcilerSample.registered ->
              ledger w2 = ledger ReconcilerSample.registered ->
     ledger (snd (AddNewSchemaMigrations "sql" w2)) = ledger w2)
  /\ (forall filePath rest (v v' : @World Sample.external),
        filePath <> "sql" ->
        CountSchemaMigrationForFilePath filePath v = (Ok 1, v') ->
        registerEach "sql" (filePath :: rest) v = registerEach "sql" rest v')
  /\ ((forall p, countPath p (ledger ReconcilerSample.first) <= 1) ->
      (forall p, In p (map fst (walk "sql" (disk ReconcilerSample.first))) ->
                 p <> "sql" ->
         countPath p (ledger ReconcilerSample.registered) = 1)
      /\ (forall w2 : @World Sample.external, disk w2 = disk ReconcilerSample.registered ->
                     ledger w2 = ledger ReconcilerSample.registered ->
            faults w2 = [] ->
            AddNewSchemaMigrations "sql" w2 = (Ok tt, w2))).
Proof.
  apply (@reconciling_twice_registers_once Sample.external "sql"
           ReconcilerSample.first ReconcilerSample.registered).
  vm_compute; reflexivity.
Defined.

(** C10 at the world the [up] command leaves when its second file fails. *)
Lemma unattempted_rows_are_neither_succeeded_nor_failed_witness :
  LedgerInv (ledger CommandSample.afterBrokenUp)
  /\ (forall conf, LedgerInv (ledger (snd (main conf CommandSample.afterBrokenUp))))
  /\ (forall filePath row w',
        AddEntryToDB filePath CommandSample.afterBrokenUp = (Ok row, w') ->
        Processed row = false /\ Success row = false /\ Error row = ""
        /\ ledger w' = (ledger CommandSample.afterBrokenUp ++ [row])%list)
  /\ (forall sm r w',
        ApplyMigration sm CommandSample.afterBrokenUp = (r, w') ->
        forall row, In row (ledger w') ->
          In row (ledger CommandSample.afterBrokenUp)
          \/ (ID row = ID sm /\ Processed row = true))
  /\ (forall sm message,
        Exec (target CommandSample.afterBrokenUp) (FileContent sm) = inr message ->
        fst (ApplyMigration sm CommandSample.afterBrokenUp) = Err (ErrExec message)
        /\ (hd false (faults CommandSample.afterBrokenUp) = true ->
            ledger (snd (ApplyMigration sm CommandSample.afterBrokenUp))
            = ledger CommandSample.afterBrokenUp)
        /\ (hd false (faults CommandSample.afterBrokenUp) = false ->
            length (ledger (snd (ApplyMigration sm CommandSample.afterBrokenUp)))
            = length (ledger CommandSample.afterBrokenUp)
            /\ forall row,
                 In row (ledger (snd (ApplyMigration sm CommandSample.afterBrokenUp))) ->
                 ID row = ID sm ->
                 Processed row = true /\ Success row = false
                 /\ Error row = message)).
Proof.
  apply (@unattempted_rows_are_neither_succeeded_nor_failed Sample.external
           CommandSample.afterBrokenUp).
  apply (Reachable_command (Sample.conf "up")).
  apply Reachable_installed. reflexivity.
Defined.

(* ------------------------------------------------------------------ *)
(** ** Relations that every step of the program respects *)

Section Frame.

Context {X : External}.

Variable R : World -> World -> Prop.
Hypothesis R_refl : forall w, R w w.
Hypothesis R_trans : forall a b c, R a b -> R b c -> R a c.
Hypothesis R_faults : forall fs w, R w (setFaults fs w).
Hypothesis R_log : forall line e w, R w (emit (EvLog line e) w).

Lemma Relates_ret A (a : A) : Relates R (ret a).
Proof. intros w. apply R_refl. Qed.

Lemma Relates_fail A e : Relates R (@fail X A e).
Proof. intros w. apply R_refl. Qed.

Lemma Relates_bind A B (m : M A) (k : A -> M B) :
  Relates R m -> (forall a, Relates R (k a)) -> Relates R (bind m k).
Proof.
  intros Hm Hk w. unfold bind. specialize (Hm w).
  destruct (m w) as [[a|e|] w1]; simpl in *; [|assumption|assumption].
  eapply R_trans; [exact Hm | apply Hk].
Qed.

Lemma Relates_inspect A B (m : M A) (k : A + error -> M B) :
  Relates R m -> (forall a, Relates R (k a)) -> Relates R (inspect m k).
Proof.
  intros Hm Hk w. unfold inspect. specialize (Hm w).
  destruct (m w) as [[a|e|] w1]; simpl in *; [| |assumption];
    (eapply R_trans; [exact Hm | apply Hk]).
Qed.

Lemma Relates_logError A line e (k : M A) :
  Relates R k -> Relates R (logError line e k).
Proof.
  intros Hk w. unfold logError. eapply R_trans; [apply R_log | apply Hk].
Qed.

Lemma Relates_dbCall A (k : M A) : Relates R k -> Relates R (dbCall k).
Proof.
  intros Hk w. unfold dbCall.
  destruct (faults w) as [|[|] fs]; simpl.
  - apply Hk.
  - apply R_faults.
  - eapply R_trans; [apply R_faults | apply Hk].
Qed.

Lemma Relates_Count filePath :
  Relates R (CountSchemaMigrationForFilePath filePath).
Proof. apply Relates_dbCall. intros w. apply R_refl. Qed.

Lemma Relates_Fetch migrationType order :
  Relates R (FetchUnProcessedSchemaMigrations migrationType order).
Proof. apply Relates_dbCall. intros w. apply R_refl. Qed.

Lemma Relates_FetchOne id migrationType :
  Relates R (FetchUnProcessedSchemaMigrationBasedOnVersionAndType id migrationType).
Proof.
  apply Relates_dbCall. intros w. destruct (filter _ _); apply R_refl.
Qed.

Lemma Relates_GetCurrentVersion : Relates R GetCurrentVersion.
Proof.
  apply Relates_dbCall. intros w. destruct (sortBy _ _); apply R_refl.
Qed.

Lemma Relates_timeNow : Relates R timeNow.
Proof. intros w. apply R_refl. Qed.

(** The reconciler, given what a drawn salt and an insert do. *)
Section Reconcile.

Hypothesis R_entropy : forall en w, R w (setEntropy en w).
Hypothesis R_insert : forall sm, Registered sm -> Relates R (AddSchemaMigration sm).

Lemma Relates_GetFileDetails filePath : Relates R (GetFileDetails filePath).
Proof.
  intros w. destruct (GetFileDetails filePath w) as [r w'] eqn:G.
  destruct (GetFileDetails_frame _ _ _ _ G) as (en & ->). apply R_entropy.
Qed.

Lemma Relates_AddEntryToDB filePath : Relates R (AddEntryToDB filePath).
Proof.
  apply Relates_bind; [apply Relates_GetFileDetails|]. intros d.
  apply Relates_bind; [apply Relates_timeNow|]. intros t.
  apply R_insert. repeat split.
Qed.

Lemma Relates_registerEach root files : Relates R (registerEach root files).
Proof.
  induction files as [|filePath rest IH]; simpl; [apply Relates_ret|].
  destruct (filePath =? root)%string; [exact IH|].
  apply Relates_inspect; [apply Relates_Count|].
  intros [count|err]; [|apply Relates_logError, Relates_fail].
  destruct (count =? 1); [exact IH|].
  apply Relates_inspect; [apply Relates_AddEntryToDB|].
  intros [_|err]; [exact IH | apply Relates_logError, Relates_fail].
Qed.

Lemma Relates_AddNewSchemaMigrations root :
  Relates R (AddNewSchemaMigrations root).
Proof.
  apply Relates_inspect.
  - intros w. unfold Walk. destruct (root =? _)%string; apply R_refl.
  - intros [files|err]; [apply Relates_registerEach|].
    apply Relates_logError, Relates_fail.
Qed.

End Reconcile.

(** The engine, given what a batch and a ledger write do. *)
Section Apply.

Hypothesis R_exec : forall sm, Relates R (ApplySchemaMigration sm).
Hypothesis R_update : forall id executionTime success e,
  Relates R (UpdateSchemaMigration id executionTime true success e).

Lemma Relates_ApplyMigration sm : Relates R (ApplyMigration sm).
Proof.
  unfold ApplyMigration.
  apply Relates_bind; [apply Relates_timeNow|]. intros start.
  apply Relates_inspect; [apply R_exec|]. intros applied.
  apply Relates_bind; [apply Relates_timeNow|]. intros end_.
  destruct applied as [_|err].
  - apply Relates_inspect; [apply R_update|].
    intros [_|err]; [apply Relates_ret|].
    apply Relates_logError, Relates_fail.
  - apply Relates_inspect; [apply R_update|].
    intros _. apply Relates_logError, Relates_fail.
Qed.

Lemma Relates_applyEach rows : Relates R (applyEach rows).
Proof.
  induction rows as [|sm rest IH]; simpl; [apply Relates_ret|].
  apply Relates_bind; [apply Relates_ApplyMigration | intros _; exact IH].
Qed.

Lemma Relates_revertEach rows : Relates R (revertEach rows).
Proof.
  induction rows as [|sm rest IH]; simpl; [apply Relates_ret|].
  apply Relates_inspect; [apply Relates_ApplyMigration|].
  intros [_|err]; [exact IH | apply Relates_logError; exact IH].
Qed.

Lemma Relates_revertAll : Relates R revertAll.
Proof.
  apply Relates_inspect; [apply Relates_Fetch|].
  intros [rows|err]; [apply Relates_revertEach|].
  apply Relates_logError, (Relates_revertEach []).
Qed.

Lemma Relates_revertMigration version : Relates R (revertMigration version).
Proof.
  apply Relates_bind; [apply Relates_FetchOne|].
  intros sm. apply Relates_ApplyMigration.
Qed.

End Apply.

(** The whole program. *)
Section Commands.

Hypothesis R_entropy : forall en w, R w (setEntropy en w).
Hypothesis R_insert : forall sm, Registered sm -> Relates R (AddSchemaMigration sm).
Hypothesis R_exec : forall sm, Relates R (ApplySchemaMigration sm).
Hypothesis R_update : forall id executionTime success e,
  Relates R (UpdateSchemaMigration id executionTime true success e).
Hypothesis R_report : forall w ev,
  (forall id, ev <> EvExec id) -> R w (emit ev w).

Lemma Relates_syncLatestMigrations root : Relates R (syncLatestMigrations root).
Proof.
  apply Relates_bind; [apply Relates_AddNewSchemaMigrations; assumption|].
  intros _. apply Relates_bind; [apply Relates_Fetch|].
  intros rows. apply Relates_applyEach; assumption.
Qed.

Lemma Relates_main conf : Relates R (main conf).
Proof.
  unfold main.
  destruct (Command conf =? "version")%string.
  { apply Relates_inspect; [apply Relates_GetCurrentVersion|].
    intros [latest|err]; [|apply Relates_logError, Relates_ret].
    intros w. apply R_report. discriminate. }
  destruct (Command conf =? "up")%string.
  { apply Relates_inspect; [apply Relates_syncLatestMigrations|].
    intros [_|err]; [apply Relates_ret|].
    apply Relates_logError, Relates_ret. }
  destruct (Command conf =? "down")%string.
  { apply Relates_inspect; [apply Relates_GetCurrentVersion|].
    intros [latest|err].
    - apply Relates_inspect; [apply Relates_revertMigration; assumption|].
      intros [_|err]; [apply Relates_ret|].
      apply Relates_logError, Relates_ret.
    - apply Relates_logError. intros w. apply R_report. discriminate. }
  destruct (Command conf =? "reset")%string.
  { apply Relates_revertAll; assumption. }
  apply Relates_ret.
Qed.

End Commands.

End Frame.

(* ------------------------------------------------------------------ *)
(** ** What no command does to the ledger *)

Section Ledger.

Context {X : External}.

Lemma executed_app a b : executed (a ++ b) = (executed a ++ executed b)%list.
Proof.
  induction a as [|[id|line e|v|c] a IH]; simpl; rewrite ?IH; reflexivity.
Qed.

Lemma Evolves_refl l : Evolves l l.
Proof. induction l; constructor; auto. Qed.

Lemma Evolves_trans a b c : Evolves a b -> Evolves b c -> Evolves a c.
Proof.
  intros Hab. revert c. induction Hab as [|x y a b (Hi & Hp) _ IH]; intros c Hbc.
  - inversion Hbc; constructor.
  - inversion Hbc as [|y' z b' c' (Hi' & Hp') Hrest]; subst.
    constructor; [split; [congruence | auto] | apply IH; assumption].
Qed.

Lemma Evolves_update id executionTime success e l :
  Evolves l (map (fun r => if ID r =? id
                           then updateRow executionTime true success e r
                           else r) l).
Proof.
  induction l as [|r l IH]; simpl; constructor; [|exact IH].
  destruct (ID r =? id); simpl; auto.
Qed.

Lemma Evolves_app a a' b b' : Evolves a a' -> Evolves b b' -> Evolves (a ++ b) (a' ++ b').
Proof. apply Forall2_app. Qed.

Lemma Evolves_length l l' : Evolves l l' -> length l' = length l.
Proof. intros H. symmetry. eapply Forall2_length; exact H. Qed.

Lemma Evolves_In l l' r :
  Evolves l l' -> In r l ->
  exists r', In r' l' /\ identity r' = identity r
             /\ (Processed r = true -> Processed r' = true).
Proof.
  induction 1 as [|x y a b (Hi & Hp) _ IH]; intros [].
  - subst x. exists y. split; [left; reflexivity | auto].
  - destruct (IH H) as (r' & Hin & H'). exists r'. split; [right; exact Hin | exact H'].
Qed.

Lemma Evolves_In_back l l' r' :
  Evolves l l' -> In r' l' ->
  exists r, In r l /\ identity r' = identity r
            /\ (Processed r = true -> Processed r' = true).
Proof.
  induction 1 as [|x y a b (Hi & Hp) _ IH]; intros [].
  - subst y. exists x. split; [left; reflexivity | auto].
  - destruct (IH H) as (r & Hin & H'). exists r. split; [right; exact Hin | exact H'].
Qed.

Lemma Grows_refl l : Grows l l.
Proof. exists l, []. rewrite app_nil_r. split; [reflexivity | apply Evolves_refl]. Qed.

Lemma Grows_trans a b c : Grows a b -> Grows b c -> Grows a c.
Proof.
  intros (k1 & a1 & -> & H1) (k2 & a2 & -> & H2).
  apply Forall2_app_inv_l in H2. destruct H2 as (k2a & k2b & Ha & Hb & ->).
  exists k2a, (k2b ++ a2)%list. split; [rewrite app_assoc; reflexivity|].
  eapply Evolves_trans; eassumption.
Qed.

Lemma AddSchemaMigration_Grows sm :
  Relates (fun w w' => Grows (ledger w) (ledger w')) (AddSchemaMigration sm).
Proof.
  intros w. destruct (AddSchemaMigration sm w) as [r w'] eqn:A. simpl.
  destruct (AddSchemaMigration_spec _ _ _ _ A)
    as (_ & [(id & _ & Hl & _)|(_ & Hl)]); rewrite Hl.
  - exists (ledger w), [withID id sm]. split; [reflexivity | apply Evolves_refl].
  - apply Grows_refl.
Qed.

(** No command deletes a row, moves one, or rewrites what was registered
    in it, and a row that was processed stays processed. *)
Lemma main_Grows conf : Relates (fun w w' => Grows (ledger w) (ledger w')) (main conf).
Proof.
  apply Relates_main.
  - intros; apply Grows_refl.
  - intros a b c; apply Grows_trans.
  - intros; apply Grows_refl.
  - intros; apply Grows_refl.
  - intros; apply Grows_refl.
  - intros sm _. apply AddSchemaMigration_Grows.
  - intros sm w. unfold ApplySchemaMigration. simpl.
    destruct (Exec _ _); apply Grows_refl.
  - intros id et s e. apply Relates_dbCall;
      try (intros; apply Grows_refl); [intros a b c; apply Grows_trans|].
    intros w. simpl. exists (map (fun r => if ID r =? id
                                           then updateRow et true s e r
                                           else r) (ledger w)), [].
    rewrite app_nil_r. split; [reflexivity | apply Evolves_update].
  - intros; apply Grows_refl.
Qed.

(** X1: whatever the command and whatever fails on the way, the ledger after
    it has every row it had, at the same place, with the same id, version,
    description, type, path, content and checksum; no row that was processed
    has become unprocessed; new rows come behind the old ones. *)
Theorem commands_never_delete_or_rewrite_rows conf w :
  exists kept added,
    ledger (snd (main conf w)) = (kept ++ added)%list
    /\ length kept = length (ledger w)
    /\ map identity kept = map identity (ledger w)
    /\ Evolves (ledger w) kept
    /\ forall r, In r (ledger w) ->
         exists r', In r' (ledger (snd (main conf w)))
                    /\ identity r' = identity r
                    /\ (Processed r = true -> Processed r' = true).
Proof.
  destruct (main_Grows conf w) as (kept & added & Hl & He).
  exists kept, added. split; [exact Hl|].
  split; [apply Evolves_length; exact He|].
  split.
  - clear Hl. induction He as [|x y a b (Hi & _) _ IH]; simpl; congruence.
  - split; [exact He|]. intros r Hin.
    destruct (Evolves_In _ _ _ He Hin) as (r' & Hin' & H').
    exists r'. split; [|exact H']. rewrite Hl. apply in_or_app. left; exact Hin'.
Qed.

End Ledger.

(* ------------------------------------------------------------------ *)
(** ** Ids, and the order in which rows are fetched *)

Section Ids.

Context {X : External}.

Lemma StronglySorted_snoc (l : list SchemaMigration) y :
  StronglySorted idBefore l -> Forall (fun x => idBefore x y) l ->
  StronglySorted idBefore (l ++ [y]).
Proof.
  induction 1 as [|x l Hs IH Hall]; intros Hy; simpl.
  - repeat constructor.
  - inversion Hy; subst. constructor; [apply IH; assumption|].
    apply Forall_app. split; [exact Hall | repeat constructor; assumption].
Qed.

Lemma StronglySorted_map_id (f : SchemaMigration -> SchemaMigration) l :
  (forall r, ID (f r) = ID r) ->
  StronglySorted idBefore l -> StronglySorted idBefore (map f l).
Proof.
  intros Hf. induction 1 as [|x l Hs IH Hall]; simpl; constructor; [exact IH|].
  apply Forall_map. eapply Forall_impl; [|exact Hall].
  intros a Ha. unfold idBefore in *. rewrite !Hf. exact Ha.
Qed.

Lemma ID_update id executionTime success e r :
  ID (if ID r =? id then updateRow executionTime true success e r else r) = ID r.
Proof. destruct (ID r =? id); reflexivity. Qed.

Lemma AddSchemaMigration_IdsFresh sm :
  Relates (fun w w' => IdsFresh w -> IdsFresh w') (AddSchemaMigration sm).
Proof.
  assert (Hbody : forall v : World, IdsFresh v ->
    IdsFresh (snd (
      if negb (notNullOk sm)
      then (@Err SchemaMigration (ErrConstraint "not-null"),
            setNextID (nextID v + 1) v)
      else if existsb (sameKey sm) (ledger (setNextID (nextID v + 1) v))
           then (Err (ErrConstraint "idx_unique_schema_version_migration_type"),
                 setNextID (nextID v + 1) v)
           else (Ok (withID (nextID v) sm),
                 setLedger (ledger (setNextID (nextID v + 1) v)
                              ++ [withID (nextID v) sm])%list
                           (setNextID (nextID v + 1) v))))).
  { intros v (Hs & Hb).
    assert (Hb' : Forall (fun r => ID r < nextID v + 1) (ledger v)).
    { eapply Forall_impl; [|exact Hb]. simpl. intros; lia. }
    destruct (negb (notNullOk sm)); [split; simpl; assumption|].
    destruct (existsb _ _); [split; simpl; assumption|].
    split; simpl.
    - apply StronglySorted_snoc; [exact Hs|].
      eapply Forall_impl; [|exact Hb]. intros a Ha. exact Ha.
    - apply Forall_app. split; [exact Hb'|].
      constructor; [simpl; lia | constructor]. }
  intros w Hw. unfold AddSchemaMigration, dbCall.
  destruct (faults w) as [|[|] fs].
  - apply Hbody. exact Hw.
  - exact Hw.
  - apply Hbody. exact Hw.
Qed.

Lemma main_IdsFresh conf : Relates (fun w w' => IdsFresh w -> IdsFresh w') (main conf).
Proof.
  apply Relates_main; auto.
  - intros sm _. apply AddSchemaMigration_IdsFresh.
  - intros sm w H. unfold ApplySchemaMigration. simpl.
    destruct (Exec _ _); exact H.
  - intros id et s e. apply Relates_dbCall; auto.
    intros w (Hs & Hb). split; simpl.
    + apply StronglySorted_map_id; [intros; apply ID_update | exact Hs].
    + apply Forall_map. eapply Forall_impl; [|exact Hb].
      intros a Ha. rewrite ID_update. exact Ha.
Qed.

Lemma Operated_IdsFresh w : Operated w -> IdsFresh w.
Proof.
  induction 1 as [w Hnil|conf w _ IH|w w' _ IH Hl Hn].
  - unfold IdsFresh. rewrite Hnil. split; constructor.
  - apply main_IdsFresh. exact IH.
  - destruct IH as (Hs & Hb). unfold IdsFresh. rewrite Hl, Hn. split; assumption.
Qed.

Lemma idBefore_NoDup l : StronglySorted idBefore l -> NoDup (map ID l).
Proof.
  induction 1 as [|x l Hs IH Hall]; simpl; constructor; [|exact IH].
  intros Hin. apply in_map_iff in Hin. destruct Hin as (y & Hy & Hin).
  rewrite Forall_forall in Hall. specialize (Hall y Hin).
  unfold idBefore in Hall. lia.
Qed.

(** X2: in an installation whose table only the program writes, the ids rise
    strictly along the rows in the order of their registration, every id is
    below the next value of the sequence, and no two rows share an id. *)
Theorem ids_rise_in_registration_order w :
  Operated w ->
  StronglySorted idBefore (ledger w)
  /\ Forall (fun r => ID r < nextID w) (ledger w)
  /\ NoDup (map ID (ledger w)).
Proof.
  intros Hop. destruct (Operated_IdsFresh _ Hop) as (Hs & Hb).
  split; [exact Hs|]. split; [exact Hb | apply idBefore_NoDup; exact Hs].
Qed.

Lemma StronglySorted_filter (f : SchemaMigration -> bool) l :
  StronglySorted idBefore l -> StronglySorted idBefore (filter f l).
Proof.
  induction 1 as [|x l Hs IH Hall]; simpl; [constructor|].
  destruct (f x); [|exact IH]. constructor; [exact IH|].
  rewrite Forall_forall in *. intros y Hy. apply filter_In in Hy.
  apply Hall. tauto.
Qed.

Lemma sortBy_leb_sorted_input l :
  StronglySorted idBefore l -> sortBy Z.leb l = l.
Proof.
  induction 1 as [|x l Hs IH Hall]; simpl; [reflexivity|].
  rewrite IH. destruct l as [|y l]; [reflexivity|]. simpl.
  inversion Hall as [|? ? Hxy _]; subst. unfold idBefore in Hxy.
  destruct (Z.leb_spec (ID x) (ID y)); [reflexivity | lia].
Qed.

Lemma insertBy_geb_last x l :
  Forall (fun y => idBefore x y) l -> insertBy Z.geb x l = (l ++ [x])%list.
Proof.
  induction 1 as [|y l Hxy _ IH]; simpl; [reflexivity|].
  unfold idBefore in Hxy. rewrite Z.geb_leb.
  destruct (Z.leb_spec (ID y) (ID x)); [lia|]. rewrite IH. reflexivity.
Qed.

Lemma sortBy_geb_sorted_input l :
  StronglySorted idBefore l -> sortBy Z.geb l = rev l.
Proof.
  induction 1 as [|x l Hs IH Hall]; simpl; [reflexivity|].
  rewrite IH. apply insertBy_geb_last.
  rewrite Forall_forall in *. intros y Hy. apply Hall. apply in_rev. exact Hy.
Qed.


End Ids.

(* ------------------------------------------------------------------ *)
(** ** What reconciliation does and does not do *)

Section Registration.

Context {X : External}.

Lemma ReadFile_disk filePath w1 w2 :
  disk w1 = disk w2 -> fst (ReadFile filePath w1) = fst (ReadFile filePath w2).
Proof.
  intros Hd. unfold ReadFile. rewrite Hd.
  destruct (lookupPath _ _) as [[? ?|? ?]|]; reflexivity.
Qed.

(** The row that [AddEntryToDB] returns, field by field. *)
Lemma AddEntryToDB_Ok filePath w row w' :
  AddEntryToDB filePath w = (Ok row, w') ->
  exists d w0,
    GetFileDetails filePath w = (Ok d, w0)
    /\ row = mkSchemaMigration (ID row) (fdVersion d) (fdDescription d)
               (fdMigrationType d) filePath 0 false (fdFileContent d)
               (fdCheckSum d) false "" (now w) (now w)
    /\ ledger w' = (ledger w ++ [row])%list.
Proof.
  unfold AddEntryToDB, bind at 1.
  destruct (GetFileDetails filePath w) as [[d|e|] w0] eqn:G; try discriminate.
  pose proof (GetFileDetails_frame _ _ _ _ G) as (en & Hw0).
  pose proof (GetFileDetails_Ok _ _ _ _ G)
    as (salt & rest & digest & _ & _ & _ & _ & Hp & _ & _).
  unfold bind, timeNow. intros H.
  destruct (AddSchemaMigration_spec _ _ _ _ H)
    as (_ & [(id & Hr & Hl & _)|((e & Hr) & _)]); [|discriminate].
  inversion Hr; subst row. exists d, w0.
  split; [reflexivity|]. subst w0. simpl in *.
  split; [unfold withID; simpl; rewrite Hp; reflexivity | exact Hl].
Qed.

(** What the loop of the reconciler leaves behind, however it ends. *)
Lemma registerEach_appends root files : forall w res w',
  registerEach root files w = (res, w') ->
  disk w' = disk w
  /\ exists added,
       ledger w' = (ledger w ++ added)%list
       /\ Forall (fun r => Registered r /\ Faithful r
                           /\ In (FilePath r) files /\ FilePath r <> root
                           /\ fst (ReadFile (FilePath r) w) = Ok (FileContent r))
                 added.
Proof.
  induction files as [|filePath rest IH]; intros w res w'; simpl.
  - intros H; inversion H; subst. split; [reflexivity|].
    exists []. rewrite app_nil_r. split; [reflexivity | constructor].
  - assert (Hweak : forall v, disk v = disk w -> ledger v = ledger w ->
              registerEach root rest v = (res, w') ->
              disk w' = disk w
              /\ exists added,
                   ledger w' = (ledger w ++ added)%list
                   /\ Forall (fun r => Registered r /\ Faithful r
                                /\ In (FilePath r) (filePath :: rest)
                                /\ FilePath r <> root
                                /\ fst (ReadFile (FilePath r) w) = Ok (FileContent r))
                             added).
    { intros v Hd Hl H. destruct (IH _ _ _ H) as (Hd' & added & Hl' & Hall).
      split; [congruence|]. exists added. split; [congruence|].
      eapply Forall_impl; [|exact Hall].
      intros r (H1 & H2 & H3 & H4 & H5).
      split; [exact H1|]. split; [exact H2|]. split; [right; exact H3|].
      split; [exact H4|].
      rewrite <- H5. apply ReadFile_disk. symmetry; exact Hd. }
    assert (Hstop : forall (o : Outcome unit) v,
              disk v = disk w -> ledger v = ledger w ->
              (o, v) = (res, w') ->
              disk w' = disk w
              /\ exists added,
                   ledger w' = (ledger w ++ added)%list
                   /\ Forall (fun r => Registered r /\ Faithful r
                                /\ In (FilePath r) (filePath :: rest)
                                /\ FilePath r <> root
                                /\ fst (ReadFile (FilePath r) w) = Ok (FileContent r))
                             added).
    { intros o v Hd Hl H. inversion H; subst. split; [exact Hd|]. exists [].
      rewrite app_nil_r. split; [exact Hl | constructor]. }
    destruct (filePath =? root)%string eqn:Eroot; [apply Hweak; reflexivity|].
    apply String.eqb_neq in Eroot.
    unfold inspect at 1.
    destruct (CountSchemaMigrationForFilePath filePath w) as [[c|e|] w0] eqn:C;
      destruct (Count_spec _ _ _ _ C) as (Hl0 & Hd0 & _);
      try (unfold logError, fail; apply Hstop; simpl; assumption).
    destruct (c =? 1); [apply Hweak; assumption|].
    unfold inspect at 1.
    destruct (AddEntryToDB filePath w0) as [[row|e|] w1] eqn:A;
      destruct (AddEntryToDB_spec _ _ _ _ A) as (Hd1 & Hcase).
    + destruct Hcase as [(row' & Hr & Hl1 & Hp & Hf & Hpr & Hsu & Her & _)
                        |(Hno & _)]; [|exfalso; eapply Hno; reflexivity].
      inversion Hr; subst row'.
      destruct (AddEntryToDB_Ok _ _ _ _ A) as (d & w00 & G & Hrow & _).
      destruct (GetFileDetails_Ok _ _ _ _ G) as (_ & _ & _ & HR & _).
      intros H. destruct (IH _ _ _ H) as (Hd' & added & Hl' & Hall).
      split; [congruence|].
      exists (row :: added). split.
      * rewrite Hl', Hl1, Hl0, <- app_assoc. reflexivity.
      * constructor.
        -- split; [unfold Registered; rewrite Hrow; simpl; auto|].
           split; [exact Hf|]. split; [left; symmetry; exact Hp|].
           split; [congruence|].
           rewrite Hp. rewrite (ReadFile_disk filePath w w0) by (symmetry; exact Hd0).
           rewrite HR. simpl. rewrite Hrow. reflexivity.
        -- eapply Forall_impl; [|exact Hall].
           intros r (H1 & H2 & H3 & H4 & H5).
           split; [exact H1|]. split; [exact H2|]. split; [right; exact H3|].
           split; [exact H4|].
           rewrite <- H5. apply ReadFile_disk. congruence.
    + unfold logError, fail.
      destruct Hcase as [(row' & Hr & _)|(_ & Hl1 & _)]; [discriminate|].
      apply Hstop; simpl; congruence.
    + destruct Hcase as [(row' & Hr & _)|(_ & Hl1 & _)]; [discriminate|].
      apply Hstop; congruence.
Qed.

Lemma AddNewSchemaMigrations_quiet root :
  Relates (fun w w' => target w' = target w
                       /\ executed (trace w') = executed (trace w))
          (AddNewSchemaMigrations root).
Proof.
  apply Relates_AddNewSchemaMigrations.
  - intros; split; reflexivity.
  - intros a b c (H1 & H2) (H3 & H4). split; congruence.
  - intros; split; reflexivity.
  - intros line e w. split; [reflexivity|]. simpl.
    rewrite executed_app. simpl. apply app_nil_r.
  - intros; split; reflexivity.
  - intros sm _ w. unfold AddSchemaMigration, dbCall.
    destruct (faults w) as [|[|] fs]; simpl;
      repeat (match goal with |- context [if ?b then _ else _] => destruct b end);
      simpl; split; reflexivity.
Qed.

Lemma AddNewSchemaMigrations_appends root w :
  exists added,
    ledger (snd (AddNewSchemaMigrations root w)) = (ledger w ++ added)%list
    /\ Forall (fun r => Registered r /\ Faithful r
                        /\ In (FilePath r) (map fst (walk root (disk w)))
                        /\ FilePath r <> root
                        /\ fst (ReadFile (FilePath r) w) = Ok (FileContent r))
              added.
Proof.
  unfold AddNewSchemaMigrations, inspect.
  destruct (Walk root w) as [[files|e|] w0] eqn:Hwalk;
    destruct (Walk_spec _ _ _ _ Hwalk) as (-> & Hr).
  - destruct Hr as [Hr|Hr]; [discriminate|]. inversion Hr; subst files.
    destruct (registerEach root (map fst (walk root (disk w))) w)
      as [res w'] eqn:E. simpl.
    apply (registerEach_appends _ _ _ _ _ E).
  - exists []. unfold logError, fail. simpl. rewrite app_nil_r.
    split; [reflexivity | constructor].
  - exists []. simpl. rewrite app_nil_r. split; [reflexivity | constructor].
Qed.


End Registration.

(* ------------------------------------------------------------------ *)
(** ** The unique index and the version query *)

Section Keys.

Context {X : External}.

Lemma keyOf_type filePath version migrationType :
  keyOf filePath = Some (version, migrationType) ->
  migrationType = "UPGRADE" \/ migrationType = "DOWNGRADE".
Proof.
  unfold keyOf.
  destruct (negb (length _ =? 3)%nat); [discriminate|].
  destruct (nth 1 _ "" =? "up")%string.
  - destruct (negb (length _ =? 2)%nat); [discriminate|].
    destruct (sliceFrom1 _); [|discriminate].
    destruct (Atoi _); [|discriminate].
    intros H; inversion H; auto.
  - destruct (nth 1 _ "" =? "down")%string; [|discriminate].
    destruct (negb (length _ =? 2)%nat); [discriminate|].
    destruct (sliceFrom1 _); [|discriminate].
    destruct (Atoi _); [|discriminate].
    intros H; inversion H; auto.
Qed.

Lemma keyOf_nonempty filePath k : keyOf filePath = Some k -> filePath <> "".
Proof. intros H ->. vm_compute in H. discriminate. Qed.

(** X5: a readable, well-named file whose version and type a row of the
    ledger already has is not registered: [AddEntryToDB] returns an error
    and the ledger is as before.  On a connection that does not fail, and
    when version, description and content are not Go zero values, the error
    is the violation of the unique index on version and type. *)
Theorem file_with_a_registered_key_is_refused filePath w d w0 r0 :
  GetFileDetails filePath w = (Ok d, w0) ->
  In r0 (ledger w) ->
  Version r0 = fdVersion d -> MigrationType r0 = fdMigrationType d ->
  (exists e, fst (AddEntryToDB filePath w) = Err e)
  /\ ledger (snd (AddEntryToDB filePath w)) = ledger w
  /\ (hd false (faults w) = false ->
      fdVersion d <> 0 -> fdDescription d <> "" -> fdFileContent d <> "" ->
      fst (AddEntryToDB filePath w)
      = Err (ErrConstraint "idx_unique_schema_version_migration_type")).
Proof.
  intros G Hin Hv Ht.
  pose proof (GetFileDetails_frame _ _ _ _ G) as (en & Hw0).
  pose proof (GetFileDetails_Ok _ _ _ _ G)
    as (salt & rest & digest & _ & _ & _ & Hsum & Hp & Hk & _).
  assert (Hdup : existsb (hasKey (fdVersion d, fdMigrationType d)) (ledger w) = true).
  { apply existsb_exists. exists r0. split; [exact Hin|].
    unfold hasKey. simpl. rewrite Hv, Ht, Z.eqb_refl, String.eqb_refl. reflexivity. }
  destruct (AddEntryToDB filePath w) as [r w'] eqn:A.
  destruct (AddEntryToDB_spec _ _ _ _ A)
    as (_ & [(row & Hr & _ & Hpath & Hf & _ & _ & _ & Hfree)
            |(Hno & Hl & [Hr|(e & Hr)])]).
  - exfalso. unfold Faithful in Hf. rewrite Hpath, Hk in Hf.
    inversion Hf as [[Hv' Ht']]. rewrite <- Hv', <- Ht', Hdup in Hfree.
    discriminate.
  - exfalso. subst r. revert A. unfold AddEntryToDB, bind. rewrite G.
    unfold timeNow, AddSchemaMigration, dbCall.
    destruct (faults w0) as [|[|] fs]; simpl;
      repeat (match goal with |- context [if ?b then _ else _] => destruct b end);
      discriminate.
  - subst r. simpl. split; [eexists; reflexivity|]. split; [exact Hl|].
    intros Hfault Hnv Hnd Hnc.
    revert A. unfold AddEntryToDB, bind. rewrite G.
    unfold timeNow, AddSchemaMigration, dbCall.
    assert (Hnn : notNullOk
              (mkSchemaMigration 0 (fdVersion d) (fdDescription d)
                 (fdMigrationType d) (fdFilePath d) 0 false (fdFileContent d)
                 (fdCheckSum d) false "" (now w0) (now w0)) = true).
    { unfold notNullOk. simpl.
      apply Z.eqb_neq in Hnv. apply String.eqb_neq in Hnd, Hnc.
      rewrite Hnv, Hnd, Hnc, Hp, Hsum. simpl.
      destruct (keyOf_type _ _ _ Hk) as [-> | ->]; simpl;
        pose proof (keyOf_nonempty _ _ Hk) as Hne;
        apply String.eqb_neq in Hne; rewrite Hne; reflexivity. }
    assert (Hsame : existsb
              (sameKey (mkSchemaMigration 0 (fdVersion d) (fdDescription d)
                 (fdMigrationType d) (fdFilePath d) 0 false (fdFileContent d)
                 (fdCheckSum d) false "" (now w0) (now w0))) (ledger w0) = true).
    { subst w0. exact Hdup. }
    assert (Hf0 : hd false (faults w0) = false) by (subst w0; exact Hfault).
    destruct (faults w0) as [|[|] fs]; simpl in Hf0; try discriminate; simpl;
      rewrite Hnn; simpl; rewrite Hsame; intros H; inversion H; reflexivity.
Qed.

(** X6: [GetCurrentVersion] changes nothing.  When the connection fails it
    returns that error; otherwise it returns [ErrNoRows] when no row is a
    processed UPGRADE, and else the processed UPGRADE row of the highest id,
    whether its attempt succeeded or not. *)
Theorem current_version_is_the_last_processed_upgrade w :
  ledger (snd (GetCurrentVersion w)) = ledger w
  /\ target (snd (GetCurrentVersion w)) = target w
  /\ trace (snd (GetCurrentVersion w)) = trace w
  /\ (hd false (faults w) = true ->
      fst (GetCurrentVersion w) = Err ErrConnection)
  /\ (hd false (faults w) = false ->
      (forall r, In r (ledger w) -> Processed r = true ->
                 MigrationType r <> "UPGRADE") ->
      fst (GetCurrentVersion w) = Err ErrNoRows)
  /\ (hd false (faults w) = false ->
      forall r, In r (ledger w) -> Processed r = true ->
                MigrationType r = "UPGRADE" ->
      exists sm,
        fst (GetCurrentVersion w) = Ok sm
        /\ In sm (ledger w) /\ Processed sm = true
        /\ MigrationType sm = "UPGRADE" /\ ID r <= ID sm).
Proof.
  set (f := fun r => Processed r && (MigrationType r =? "UPGRADE")%string).
  assert (Hfilter : forall r, In r (ledger w) -> f r = true ->
            match sortBy Z.geb (filter f (ledger w)) with
            | [] => False | _ :: _ => True end).
  { intros r Hin Hf.
    pose proof (sortBy_perm Z.geb (filter f (ledger w))) as Hperm.
    destruct (sortBy Z.geb (filter f (ledger w))); [|exact I].
    apply Permutation_nil in Hperm.
    assert (Hr : In r (filter f (ledger w))) by (apply filter_In; auto).
    rewrite Hperm in Hr. exact Hr. }
  assert (Hempty : (forall r, In r (ledger w) -> Processed r = true ->
                              MigrationType r <> "UPGRADE") ->
                   sortBy Z.geb (filter f (ledger w)) = []).
  { intros Hnone.
    assert (Hnil : filter f (ledger w) = []).
    { destruct (filter f (ledger w)) as [|r l] eqn:E; [reflexivity|].
      assert (Hr : In r (filter f (ledger w))) by (rewrite E; left; reflexivity).
      apply filter_In in Hr. destruct Hr as (Hin & Hf). unfold f in Hf.
      apply andb_true_iff in Hf. destruct Hf as (Hp & Ht).
      apply String.eqb_eq in Ht. exfalso. eapply Hnone; eauto. }
    rewrite Hnil. reflexivity. }
  split; [|split; [|split]];
    try (unfold GetCurrentVersion, dbCall;
         destruct (faults w) as [|[|] fs]; simpl;
         try destruct (sortBy _ _); reflexivity).
  split; [|split].
  - intros Hfault. unfold GetCurrentVersion, dbCall.
    destruct (faults w) as [|[|] fs]; simpl in Hfault; try discriminate.
    reflexivity.
  - intros Hfault Hnone. unfold GetCurrentVersion, dbCall.
    destruct (faults w) as [|[|] fs]; simpl in Hfault; try discriminate;
      simpl; fold f; rewrite (Hempty Hnone); reflexivity.
  - intros Hfault r Hin Hp Ht.
    destruct (GetCurrentVersion w) as [[sm|e|] w'] eqn:G.
    + destruct (GetCurrentVersion_Ok _ _ _ G) as (H1 & H2 & H3 & H4).
      exists sm. simpl. repeat split; auto.
    + exfalso. revert G. unfold GetCurrentVersion, dbCall.
      assert (Hf : f r = true) by (unfold f; rewrite Hp, Ht; reflexivity).
      pose proof (Hfilter r Hin Hf) as Hne.
      destruct (faults w) as [|[|] fs]; simpl in Hfault; try discriminate;
        simpl; fold f; destruct (sortBy Z.geb (filter f (ledger w)));
        try contradiction; discriminate.
    + exfalso. revert G. unfold GetCurrentVersion, dbCall.
      destruct (faults w) as [|[|] fs]; simpl;
        try destruct (sortBy _ _); discriminate.
Qed.

End Keys.

(* ------------------------------------------------------------------ *)
(** ** Which rows a batch can change *)

Section Touched.

Context {X : External}.

Lemma OnlyIds_refl ids l : OnlyIds ids l l.
Proof. induction l; constructor; auto. Qed.

Lemma identity_ID a b : identity b = identity a -> ID b = ID a.
Proof. unfold identity. intros H; inversion H; reflexivity. Qed.

Lemma identity_type a b : identity b = identity a -> MigrationType b = MigrationType a.
Proof. unfold identity. intros H; inversion H; reflexivity. Qed.

Lemma OnlyIds_trans ids a b c : OnlyIds ids a b -> OnlyIds ids b c -> OnlyIds ids a c.
Proof.
  intros Hab. revert c. induction Hab as [|x y a b (Hi & Hx) _ IH]; intros c Hbc.
  - inversion Hbc; constructor.
  - inversion Hbc as [|y' z b' c' (Hi' & Hy) Hrest]; subst.
    constructor; [|apply IH; assumption].
    split; [congruence|]. intros Hn.
    rewrite <- (Hx Hn). apply Hy. rewrite (identity_ID _ _ Hi). exact Hn.
Qed.

Lemma OnlyIds_more ids ids' l l' :
  (forall id, In id ids -> In id ids') -> OnlyIds ids l l' -> OnlyIds ids' l l'.
Proof.
  intros Hsub. induction 1 as [|x y a b (Hi & Hx) _ IH]; constructor; [|exact IH].
  split; [exact Hi|]. intros Hn. apply Hx. intros Hin. apply Hn, Hsub, Hin.
Qed.

Lemma OnlyIds_update id executionTime success e l :
  OnlyIds [id] l (map (fun r => if ID r =? id
                                then updateRow executionTime true success e r
                                else r) l).
Proof.
  induction l as [|r l IH]; simpl; constructor; [|exact IH].
  destruct (ID r =? id) eqn:E; simpl; [|auto].
  split; [reflexivity|]. intros Hn. exfalso. apply Hn.
  left. symmetry. apply Z.eqb_eq. exact E.
Qed.

Lemma OnlyIds_keeps ids l l' r :
  OnlyIds ids l l' -> In r l -> ~ In (ID r) ids -> In r l'.
Proof.
  induction 1 as [|x y a b (Hi & Hx) _ IH]; intros [] Hn.
  - subst x. left. apply Hx. exact Hn.
  - right. apply IH; assumption.
Qed.

Lemma OnlyIds_filter_upgrade ids l l' :
  OnlyIds ids l l' ->
  (forall a, In a l -> In (ID a) ids -> isUpgrade a = false) ->
  filter isUpgrade l' = filter isUpgrade l.
Proof.
  induction 1 as [|x y a b (Hi & Hx) _ IH]; intros Hdown; simpl; [reflexivity|].
  rewrite IH by (intros; apply Hdown; [right|]; assumption).
  destruct (in_dec Z.eq_dec (ID x) ids) as [Hin|Hn].
  - assert (Hy : isUpgrade y = isUpgrade x).
    { unfold isUpgrade. rewrite (identity_type _ _ Hi). reflexivity. }
    rewrite Hy, (Hdown x (or_introl eq_refl) Hin). reflexivity.
  - rewrite (Hx Hn). reflexivity.
Qed.

Ltac step_apply :=
  unfold ApplyMigration, bind, inspect, timeNow, ApplySchemaMigration,
    UpdateSchemaMigration, dbCall, logError, fail, ret; simpl.

(** One application changes only the rows whose id is the id of the record
    it was given. *)
Lemma ApplyMigration_OnlyIds sm w :
  OnlyIds [ID sm] (ledger w) (ledger (snd (ApplyMigration sm w))).
Proof.
  step_apply.
  destruct (Exec (target w) (FileContent sm)) as [t'|msg]; simpl;
    destruct (faults w) as [|[|] fs]; simpl;
    first [apply OnlyIds_refl | apply OnlyIds_update].
Qed.

Lemma applyEach_OnlyIds rows : forall w,
  OnlyIds (map ID rows) (ledger w) (ledger (snd (applyEach rows w))).
Proof.
  induction rows as [|sm rest IH]; intros w; simpl; [apply OnlyIds_refl|].
  unfold bind. pose proof (ApplyMigration_OnlyIds sm w) as H1.
  destruct (ApplyMigration sm w) as [[[]|e|] w1]; simpl in *;
    try (eapply OnlyIds_more; [|exact H1]; intros id [<-|[]]; left; reflexivity).
  eapply OnlyIds_trans.
  - eapply OnlyIds_more; [|exact H1]. intros id [<-|[]]. left; reflexivity.
  - eapply OnlyIds_more; [|apply IH]. intros id Hin. right; exact Hin.
Qed.

Lemma revertEach_OnlyIds rows : forall w,
  OnlyIds (map ID rows) (ledger w) (ledger (snd (revertEach rows w))).
Proof.
  induction rows as [|sm rest IH]; intros w; simpl; [apply OnlyIds_refl|].
  unfold inspect. pose proof (ApplyMigration_OnlyIds sm w) as H1.
  destruct (ApplyMigration sm w) as [[[]|e|] w1]; simpl in *.
  - eapply OnlyIds_trans.
    + eapply OnlyIds_more; [|exact H1]. intros id [<-|[]]. left; reflexivity.
    + eapply OnlyIds_more; [|apply IH]. intros id Hin. right; exact Hin.
  - unfold logError. eapply OnlyIds_trans.
    + eapply OnlyIds_more; [|exact H1]. intros id [<-|[]]. left; reflexivity.
    + eapply OnlyIds_more; [|apply (IH (emit _ w1))]. intros id Hin. right; exact Hin.
  - eapply OnlyIds_more; [|exact H1]. intros id [<-|[]]. left; reflexivity.
Qed.

Lemma NoDup_ID_inj l a b :
  NoDup (map ID l) -> In a l -> In b l -> ID a = ID b -> a = b.
Proof.
  induction l as [|x l IH]; simpl; intros Hnd Ha Hb Hid; [contradiction|].
  inversion Hnd as [|? ? Hnot Hnd']; subst.
  destruct Ha as [->|Ha], Hb as [->|Hb]; auto.
  - exfalso. apply Hnot. rewrite Hid. apply in_map. exact Hb.
  - exfalso. apply Hnot. rewrite <- Hid. apply in_map. exact Ha.
Qed.

(** The rows a fetch returns are rows of the ledger, outstanding and of the
    asked type. *)
Lemma Fetch_In migrationType order w rows w' sm :
  FetchUnProcessedSchemaMigrations migrationType order w = (Ok rows, w') ->
  In sm rows ->
  In sm (ledger w) /\ Processed sm = false /\ MigrationType sm = migrationType.
Proof.
  intros H Hin. destruct (Fetch_rows _ _ _ _ _ H) as (-> & _).
  assert (Hf : In sm (filter (unprocessedOfType migrationType) (ledger w))).
  { unfold orderRows in Hin.
    destruct (order =? "id ASC")%string;
      [eapply Permutation_in; [apply sortBy_perm | exact Hin]|].
    destruct (order =? "id DESC")%string;
      [eapply Permutation_in; [apply sortBy_perm | exact Hin] | exact Hin]. }
  apply filter_In in Hf. destruct Hf as (Hl & Hf). unfold unprocessedOfType in Hf.
  apply andb_true_iff in Hf. destruct Hf as (Hp & Ht).
  apply negb_true_iff in Hp. apply String.eqb_eq in Ht. auto.
Qed.

End Touched.

(* ------------------------------------------------------------------ *)
(** ** What each command can change *)

Section Final.

Context {X : External}.

Lemma sameTable_query A (m : M A) :
  Relates sameTable m -> forall w, ledger (snd (m w)) = ledger w.
Proof. intros H w. apply H. Qed.

Lemma GetCurrentVersion_sameTable : Relates sameTable GetCurrentVersion.
Proof.
  apply Relates_GetCurrentVersion; unfold sameTable.
  - auto.
  - intros a b c (H1 & H2) (H3 & H4). split; congruence.
  - auto.
Qed.

Lemma FetchOne_sameTable id migrationType :
  Relates sameTable
          (FetchUnProcessedSchemaMigrationBasedOnVersionAndType id migrationType).
Proof.
  apply Relates_FetchOne; unfold sameTable.
  - auto.
  - intros a b c (H1 & H2) (H3 & H4). split; congruence.
  - auto.
Qed.

Lemma Fetch_sameTable migrationType order :
  Relates sameTable (FetchUnProcessedSchemaMigrations migrationType order).
Proof.
  apply Relates_Fetch; unfold sameTable.
  - auto.
  - intros a b c (H1 & H2) (H3 & H4). split; congruence.
  - auto.
Qed.

Lemma AddNewSchemaMigrations_IdsFresh root :
  Relates (fun w w' => IdsFresh w -> IdsFresh w') (AddNewSchemaMigrations root).
Proof.
  apply Relates_AddNewSchemaMigrations; auto.
  intros sm _. apply AddSchemaMigration_IdsFresh.
Qed.

(** The rows [revertAll] may change: outstanding DOWNGRADE rows, by id. *)
Lemma revertAll_OnlyIds w :
  exists rows,
    (forall sm, In sm rows ->
       In sm (ledger w) /\ Processed sm = false
       /\ MigrationType sm = "DOWNGRADE")
    /\ OnlyIds (map ID rows) (ledger w) (ledger (snd (revertAll w))).
Proof.
  unfold revertAll, inspect.
  destruct (FetchUnProcessedSchemaMigrations "DOWNGRADE" "id DESC" w)
    as [[rows|e|] w1] eqn:F;
    pose proof (Fetch_sameTable "DOWNGRADE" "id DESC" w) as (Hl & _);
    rewrite F in Hl; simpl in Hl.
  - exists rows. split; [intros sm Hin; eapply Fetch_In; eassumption|].
    rewrite <- Hl. apply revertEach_OnlyIds.
  - exists []. split; [intros sm []|]. unfold logError. simpl.
    rewrite Hl. apply OnlyIds_refl.
  - exists []. split; [intros sm []|]. simpl. rewrite Hl. apply OnlyIds_refl.
Qed.

(** The rows [downgradeMigration] may change: at most one outstanding
    DOWNGRADE row. *)
Lemma downgradeMigration_OnlyIds w :
  exists rows,
    (length rows <= 1)%nat
    /\ (forall sm, In sm rows ->
          In sm (ledger w) /\ Processed sm = false
          /\ MigrationType sm = "DOWNGRADE")
    /\ OnlyIds (map ID rows) (ledger w) (ledger (snd (downgradeMigration w))).
Proof.
  assert (Hnone : forall v : World, ledger v = ledger w ->
            exists rows,
              (length rows <= 1)%nat
              /\ (forall sm, In sm rows ->
                    In sm (ledger w) /\ Processed sm = false
                    /\ MigrationType sm = "DOWNGRADE")
              /\ OnlyIds (map ID rows) (ledger w) (ledger v)).
  { intros v Hv. exists []. split; [simpl; lia|]. split; [intros sm []|].
    rewrite Hv. apply OnlyIds_refl. }
  unfold downgradeMigration, inspect at 1.
  destruct (GetCurrentVersion w) as [[latest|e|] w1] eqn:G;
    pose proof (GetCurrentVersion_sameTable w) as (Hl1 & _);
    rewrite G in Hl1; simpl in Hl1;
    try (unfold logError; simpl; apply Hnone; simpl; exact Hl1).
  unfold inspect, revertMigration, bind.
  destruct (FetchUnProcessedSchemaMigrationBasedOnVersionAndType
              (Version latest) "DOWNGRADE" w1) as [[sm|e|] w2] eqn:F;
    pose proof (FetchOne_sameTable (Version latest) "DOWNGRADE" w1) as (Hl2 & _);
    rewrite F in Hl2; simpl in Hl2;
    try (unfold logError, ret; simpl; apply Hnone; simpl; congruence).
  destruct (FetchByVersion_Ok _ _ _ _ _ F) as (Hin & _ & Hp & Ht).
  exists [sm]. split; [simpl; lia|]. split.
  - intros sm' [<-|[]]. rewrite <- Hl1. auto.
  - pose proof (ApplyMigration_OnlyIds sm w2) as H.
    rewrite Hl2, Hl1 in H.
    destruct (ApplyMigration sm w2) as [[[]|e|] w3]; simpl in *;
      unfold logError, ret; simpl; exact H.
Qed.

(** The rows [syncLatestMigrations] may change, once reconciliation has
    appended its rows: outstanding UPGRADE rows, by id. *)
Lemma syncLatestMigrations_OnlyIds root w :
  exists added rows,
    ledger (snd (AddNewSchemaMigrations root w)) = (ledger w ++ added)%list
    /\ (forall sm, In sm rows ->
          In sm (ledger w ++ added)%list /\ Processed sm = false
          /\ MigrationType sm = "UPGRADE")
    /\ OnlyIds (map ID rows) (ledger w ++ added)%list
               (ledger (snd (syncLatestMigrations root w))).
Proof.
  destruct (AddNewSchemaMigrations_appends root w) as (added & Hadd & _).
  exists added. unfold syncLatestMigrations, bind at 1.
  destruct (AddNewSchemaMigrations root w) as [[[]|e|] w1]; simpl in Hadd;
    try (exists []; split; [simpl; exact Hadd|]; split; [intros sm []|];
         simpl; rewrite Hadd; apply OnlyIds_refl).
  unfold bind.
  destruct (FetchUnProcessedSchemaMigrations "UPGRADE" "id ASC" w1)
    as [[rows|e|] w2] eqn:F;
    pose proof (Fetch_sameTable "UPGRADE" "id ASC" w1) as (Hl & _);
    rewrite F in Hl; simpl in Hl;
    try (exists []; split; [simpl; exact Hadd|]; split; [intros sm []|];
         simpl; rewrite Hl, Hadd; apply OnlyIds_refl).
  exists rows. split; [simpl; exact Hadd|]. split.
  - intros sm Hin. rewrite <- Hadd. eapply Fetch_In; eassumption.
  - rewrite <- Hadd, <- Hl. apply applyEach_OnlyIds.
Qed.

Lemma ids_exclude l rows r :
  NoDup (map ID l) ->
  (forall sm, In sm rows -> In sm l /\ sm <> r) ->
  In r l -> ~ In (ID r) (map ID rows).
Proof.
  intros Hnd Hrows Hr Hin. apply in_map_iff in Hin.
  destruct Hin as (sm & Hid & Hsm). destruct (Hrows sm Hsm) as (Hl & Hne).
  apply Hne. eapply NoDup_ID_inj; eauto.
Qed.

End Final.

(* ------------------------------------------------------------------ *)
(** ** Processed rows are final; reverting leaves the UPGRADE rows alone *)

Section Terminal.

Context {X : External}.

Lemma upgradeMigration_ledger conf w :
  ledger (snd (upgradeMigration conf w))
  = ledger (snd (syncLatestMigrations (MigrationDirectoryPath conf) w)).
Proof.
  unfold upgradeMigration, inspect.
  destruct (syncLatestMigrations _ w) as [[[]|e|] w1]; reflexivity.
Qed.

Lemma getCurrentVersion_ledger w : ledger (snd (getCurrentVersion w)) = ledger w.
Proof.
  unfold getCurrentVersion, inspect.
  pose proof (GetCurrentVersion_sameTable w) as (Hl & _).
  destruct (GetCurrentVersion w) as [[sm|e|] w1]; simpl in *; exact Hl.
Qed.


Lemma filter_processed_upgrade l :
  filter (fun r => Processed r && (MigrationType r =? "UPGRADE")%string) l
  = filter Processed (filter isUpgrade l).
Proof.
  induction l as [|r l IH]; simpl; [reflexivity|].
  unfold isUpgrade at 1. destruct (MigrationType r =? "UPGRADE")%string; simpl.
  - rewrite andb_true_r. destruct (Processed r); rewrite IH; reflexivity.
  - rewrite andb_false_r. exact IH.
Qed.

(** X8: in such an installation [down] and [reset] leave every UPGRADE row
    as it is, so that the version query answers after them what it answered
    before: reverting does not lower the current version. *)
Theorem reverting_leaves_the_current_version conf w :
  Operated w ->
  Command conf = "down" \/ Command conf = "reset" ->
  filter isUpgrade (ledger (snd (main conf w))) = filter isUpgrade (ledger w)
  /\ forall v v',
       ledger v = ledger w -> ledger v' = ledger (snd (main conf w)) ->
       faults v' = faults v ->
       fst (GetCurrentVersion v') = fst (GetCurrentVersion v).
Proof.
  intros Hop Hcmd. pose proof (Operated_IdsFresh _ Hop) as (Hs & _).
  pose proof (idBefore_NoDup _ Hs) as Hnd.
  assert (Hsame : forall rows l',
            (forall sm, In sm rows ->
               In sm (ledger w) /\ Processed sm = false
               /\ MigrationType sm = "DOWNGRADE") ->
            OnlyIds (map ID rows) (ledger w) l' ->
            filter isUpgrade l' = filter isUpgrade (ledger w)).
  { intros rows l' Hrows Ho. eapply OnlyIds_filter_upgrade; [exact Ho|].
    intros a Ha Hid. apply in_map_iff in Hid. destruct Hid as (sm & Hid & Hsm).
    destruct (Hrows sm Hsm) as (Hl & _ & Ht).
    assert (a = sm) by (eapply NoDup_ID_inj; eauto). subst a.
    unfold isUpgrade. rewrite Ht. reflexivity. }
  assert (Hfilter : filter isUpgrade (ledger (snd (main conf w)))
                    = filter isUpgrade (ledger w)).
  { unfold main. destruct Hcmd as [-> | ->]; simpl.
    - destruct (downgradeMigration_OnlyIds w) as (rows & _ & Hrows & Ho).
      eapply Hsame; eassumption.
    - destruct (revertAll_OnlyIds w) as (rows & Hrows & Ho).
      eapply Hsame; eassumption. }
  split; [exact Hfilter|].
  intros v v' Hv Hv' Hf. unfold GetCurrentVersion, dbCall. rewrite Hf.
  destruct (faults v) as [|[|] fs]; simpl; try reflexivity;
    rewrite !filter_processed_upgrade, Hv, Hv', Hfilter;
    destruct (sortBy _ _); reflexivity.
Qed.

End Terminal.

(* ------------------------------------------------------------------ *)
(** ** After a successful [up] *)

Section Settling.

Context {X : External}.

Ltac step_apply :=
  unfold ApplyMigration, bind, inspect, timeNow, ApplySchemaMigration,
    UpdateSchemaMigration, dbCall, logError, fail, ret; simpl.

(** An application that returns [nil] has marked every row of the record's
    id as processed. *)
Lemma ApplyMigration_Ok_marks sm w w' :
  ApplyMigration sm w = (Ok tt, w') ->
  forall r, In r (ledger w') -> ID r = ID sm -> Processed r = true.
Proof.
  step_apply.
  destruct (Exec (target w) (FileContent sm)) as [t'|msg]; simpl;
    destruct (faults w) as [|[|] fs]; simpl;
    intros H; inversion H; subst; simpl;
    intros r Hin Hid; apply in_map_iff in Hin; destruct Hin as (r0 & Hr & Hin);
    destruct (ID r0 =? ID sm) eqn:E; subst r; try reflexivity;
    apply Z.eqb_neq in E; contradiction.
Qed.

Lemma steady_refl w : steady w w.
Proof. split; [reflexivity | apply Evolves_refl]. Qed.

Lemma steady_trans a b c : steady a b -> steady b c -> steady a c.
Proof.
  intros (H1 & H2) (H3 & H4). split; [congruence | eapply Evolves_trans; eassumption].
Qed.

Lemma applyEach_steady rows : Relates steady (applyEach rows).
Proof.
  assert (Hsame : forall w v : World,
            disk v = disk w -> ledger v = ledger w -> steady w v).
  { intros w v Hd Hl. split; [exact Hd | rewrite Hl; apply Evolves_refl]. }
  apply Relates_applyEach.
  - apply steady_refl.
  - apply steady_trans.
  - intros; apply Hsame; reflexivity.
  - intros sm w. unfold ApplySchemaMigration. simpl.
    destruct (Exec _ _); apply Hsame; reflexivity.
  - intros id et s e. apply Relates_dbCall;
      try (intros; apply Hsame; reflexivity); [apply steady_trans|].
    intros w. split; [reflexivity | apply Evolves_update].
Qed.

(** A batch that returns [nil] leaves every row with the id of one of its
    records processed. *)
Lemma applyEach_Ok_marks rows : forall w w',
  applyEach rows w = (Ok tt, w') ->
  forall r, In r (ledger w') -> In (ID r) (map ID rows) -> Processed r = true.
Proof.
  induction rows as [|sm rest IH]; intros w w'; simpl; [intros _ r _ []|].
  unfold bind.
  destruct (ApplyMigration sm w) as [[[]|e|] w1] eqn:A; try discriminate.
  intros H r Hin [Hid|Hid]; [|eapply IH; eassumption].
  pose proof (applyEach_steady rest w1) as (_ & He). rewrite H in He. simpl in He.
  destruct (Evolves_In_back _ _ _ He Hin) as (r1 & Hin1 & Hi & Hp).
  apply Hp. eapply ApplyMigration_Ok_marks; [exact A | exact Hin1|].
  rewrite <- (identity_ID _ _ Hi). symmetry. exact Hid.
Qed.

Lemma identity_path a b : identity b = identity a -> FilePath b = FilePath a.
Proof. unfold identity. intros H; inversion H; reflexivity. Qed.

Lemma identity_version a b : identity b = identity a -> Version b = Version a.
Proof. unfold identity. intros H; inversion H; reflexivity. Qed.

Lemma Evolves_countPath l l' p : Evolves l l' -> countPath p l' = countPath p l.
Proof.
  unfold countPath. intros H. f_equal.
  induction H as [|x y a b (Hi & _) _ IH]; simpl; [reflexivity|].
  rewrite (identity_path _ _ (eq_sym Hi)).
  destruct (FilePath x =? p)%string; simpl; rewrite IH; reflexivity.
Qed.

Lemma Evolves_hasKey l l' k : Evolves l l' -> existsb (hasKey k) l' = existsb (hasKey k) l.
Proof.
  induction 1 as [|x y a b (Hi & _) _ IH]; simpl; [reflexivity|].
  rewrite IH. f_equal. unfold hasKey.
  rewrite (identity_version _ _ (eq_sym Hi)), (identity_type _ _ (eq_sym Hi)).
  reflexivity.
Qed.

Lemma Settled_Evolves l l' p : Evolves l l' -> Settled l p -> Settled l' p.
Proof.
  intros He [Hone|(k & Hk & Hin)].
  - left. rewrite (Evolves_countPath _ _ _ He). exact Hone.
  - right. exists k. split; [exact Hk|].
    rewrite (Evolves_hasKey _ _ _ He). exact Hin.
Qed.

Lemma AddNewSchemaMigrations_Ok_inv root w w0 :
  AddNewSchemaMigrations root w = (Ok tt, w0) ->
  (root =? nodeName (disk w))%string = true
  /\ registerEach root (map fst (walk root (disk w))) w = (Ok tt, w0).
Proof.
  unfold AddNewSchemaMigrations, inspect, Walk.
  destruct (root =? nodeName (disk w))%string;
    [auto | unfold logError, fail; discriminate].
Qed.

Lemma Fetch_quiet migrationType order :
  Relates quiet (FetchUnProcessedSchemaMigrations migrationType order).
Proof.
  apply Relates_Fetch; unfold quiet.
  - auto.
  - intros a b c (H1 & H2) (H3 & H4). split; congruence.
  - auto.
Qed.

(** X9: when [syncLatestMigrations] returns [nil], no UPGRADE row is left
    outstanding; and a further run over the same directory and the resulting
    ledger, whatever the connection does, inserts nothing, sends no batch to
    the target and leaves the target as it is. *)
Theorem successful_up_leaves_nothing_to_apply root w w1 :
  syncLatestMigrations root w = (Ok tt, w1) ->
  filter (unprocessedOfType "UPGRADE") (ledger w1) = []
  /\ forall v, disk v = disk w1 -> ledger v = ledger w1 ->
       ledger (snd (syncLatestMigrations root v)) = ledger v
       /\ target (snd (syncLatestMigrations root v)) = target v
       /\ executed (trace (snd (syncLatestMigrations root v))) = executed (trace v).
Proof.
  unfold syncLatestMigrations at 1. unfold bind at 1.
  destruct (AddNewSchemaMigrations root w) as [[[]|e|] w0] eqn:A; try discriminate.
  unfold bind at 1.
  destruct (FetchUnProcessedSchemaMigrations "UPGRADE" "id ASC" w0)
    as [[rows|e|] w2] eqn:F; try discriminate.
  intros Happly.
  destruct (Fetch_rows _ _ _ _ _ F) as (Hrows & Hl2 & _).
  pose proof (applyEach_steady rows w2) as (Hd & He).
  rewrite Happly in Hd, He. simpl in Hd, He. rewrite Hl2 in He.
  assert (Hnone : filter (unprocessedOfType "UPGRADE") (ledger w1) = []).
  { destruct (filter (unprocessedOfType "UPGRADE") (ledger w1)) as [|r l] eqn:E;
      [reflexivity|]. exfalso.
    assert (Hr : In r (filter (unprocessedOfType "UPGRADE") (ledger w1)))
      by (rewrite E; left; reflexivity).
    apply filter_In in Hr. destruct Hr as (Hin & Hf).
    unfold unprocessedOfType in Hf. apply andb_true_iff in Hf.
    destruct Hf as (Hp & Ht). apply negb_true_iff in Hp.
    destruct (Evolves_In_back _ _ _ He Hin) as (r0 & Hin0 & Hi & Hmono).
    assert (Hp0 : Processed r0 = false).
    { destruct (Processed r0); [|reflexivity].
      rewrite (Hmono eq_refl) in Hp. discriminate. }
    assert (Hrow : In r0 rows).
    { rewrite Hrows. unfold orderRows. simpl.
      eapply Permutation_in; [apply Permutation_sym, sortBy_perm|].
      apply filter_In. split; [exact Hin0|]. unfold unprocessedOfType.
      rewrite Hp0, <- (identity_type _ _ Hi), Ht. reflexivity. }
    assert (Hproc : Processed r = true).
    { eapply applyEach_Ok_marks; [exact Happly | exact Hin|].
      rewrite (identity_ID _ _ Hi). apply in_map. exact Hrow. }
    congruence. }
  split; [exact Hnone|].
  intros v Hdv Hlv.
  destruct (AddNewSchemaMigrations_Ok_inv _ _ _ A) as (Hroot & Hreg).
  destruct (registerEach_settles _ _ _ _ Hreg) as (Hd0 & _ & Hsettled).
  pose proof (Relates_Fetch sameTable) as HF.
  assert (Hdisk : disk v = disk w).
  { rewrite Hdv, Hd.
    pose proof (Fetch_rows _ _ _ _ _ F) as _.
    assert (Hd2 : disk w2 = disk w0).
    { revert F. unfold FetchUnProcessedSchemaMigrations, dbCall.
      destruct (faults w0) as [|[|] fs]; intros H; inversion H; reflexivity. }
    congruence. }
  assert (Hstay : ledger (snd (AddNewSchemaMigrations root v)) = ledger v).
  { unfold AddNewSchemaMigrations, inspect, Walk. rewrite Hdisk, Hroot.
    apply registerEach_settled_inserts_nothing.
    intros p Hp Hne. rewrite Hlv. eapply Settled_Evolves; [exact He|].
    apply Hsettled; assumption. }
  pose proof (AddNewSchemaMigrations_quiet root v) as (Ht & Hx).
  destruct (syncLatestMigrations root v) as [res v'] eqn:S. simpl.
  revert S. unfold syncLatestMigrations, bind.
  destruct (AddNewSchemaMigrations root v) as [[[]|e|] v1];
    simpl in Hstay, Ht, Hx;
    try (intros S; inversion S; subst v';
         split; [exact Hstay|]; split; [exact Ht | exact Hx]).
  pose proof (Fetch_sameTable "UPGRADE" "id ASC" v1) as (Hl & _).
  pose proof (Fetch_quiet "UPGRADE" "id ASC" v1) as (Ht2 & Hx2).
  destruct (FetchUnProcessedSchemaMigrations "UPGRADE" "id ASC" v1)
    as [[rows'|e|] v2] eqn:F'; simpl in Hl, Ht2, Hx2;
    try (intros S; inversion S; subst v';
         split; [congruence|]; split; congruence).
  destruct (Fetch_rows _ _ _ _ _ F') as (Hrows' & _).
  rewrite Hstay, Hlv, Hnone in Hrows'. unfold orderRows in Hrows'.
  simpl in Hrows'. subst rows'. simpl.
  intros S; inversion S; subst v'.
  split; [congruence|]. split; congruence.
Qed.

End Settling.

(* ------------------------------------------------------------------ *)
(** ** One application, the [down] command and the commands that only read *)

Section Commands.

Context {X : External}.

Ltac step_apply :=
  unfold ApplyMigration, bind, inspect, timeNow, ApplySchemaMigration,
    UpdateSchemaMigration, dbCall, logError, fail, ret; simpl.

Lemma In_updated id executionTime success e l r :
  In r (map (fun r => if ID r =? id
                      then updateRow executionTime true success e r
                      else r) l) ->
  ID r = id ->
  Processed r = true /\ Success r = success /\ Error r = e
  /\ ExecutionTime r = executionTime.
Proof.
  intros Hin Hid. apply in_map_iff in Hin. destruct Hin as (r0 & Hr & Hin).
  destruct (ID r0 =? id) eqn:E; subst r; simpl; [auto|].
  apply Z.eqb_neq in E. contradiction.
Qed.


Lemma ApplyMigration_executes sm w :
  executed (trace (snd (ApplyMigration sm w)))
  = (executed (trace w) ++ [ID sm])%list.
Proof.
  destruct (ApplyMigration_trace sm w) as [(w' & E & T)|(w' & line & e & E & T)];
    rewrite E; simpl; rewrite T, executed_app; reflexivity.
Qed.

(** X11: [down] sends at most one batch to the target.  When the version
    query returns an error it sends none, changes neither ledger nor
    target, reports that error and exits with code 1.  A batch it sends is
    the batch of an outstanding DOWNGRADE row of the ledger, and that row's
    id is the version number of the row the version query returned. *)
Theorem down_sends_at_most_one_batch w :
  (forall e, fst (GetCurrentVersion w) = Err e ->
     trace (snd (downgradeMigration w))
     = (trace w ++ [EvLog "Unable to fetch Current Version." e; EvExit 1])%list
     /\ ledger (snd (downgradeMigration w)) = ledger w
     /\ target (snd (downgradeMigration w)) = target w)
  /\ (executed (trace (snd (downgradeMigration w))) = executed (trace w)
      \/ exists latest sm,
           fst (GetCurrentVersion w) = Ok latest
           /\ In sm (ledger w) /\ ID sm = Version latest
           /\ Processed sm = false /\ MigrationType sm = "DOWNGRADE"
           /\ executed (trace (snd (downgradeMigration w)))
              = (executed (trace w) ++ [ID sm])%list).
Proof.
  assert (Hq : forall v : World, quiet v v) by (intros; split; reflexivity).
  assert (Hqt : forall a b c : World, quiet a b -> quiet b c -> quiet a c).
  { intros a b c (H1 & H2) (H3 & H4). split; congruence. }
  pose proof (GetCurrentVersion_sameTable w) as (Hl1 & _).
  assert (Hq1 : quiet w (snd (GetCurrentVersion w)) /\
                trace (snd (GetCurrentVersion w)) = trace w).
  { unfold GetCurrentVersion, dbCall.
    destruct (faults w) as [|[|] fs]; simpl;
      try destruct (sortBy _ _); simpl; repeat split. }
  destruct Hq1 as ((Ht1 & Hx1) & Htr1).
  destruct (downgradeMigration w) as [res w'] eqn:D. simpl.
  revert D. unfold downgradeMigration, inspect, revertMigration, bind.
  destruct (GetCurrentVersion w) as [[latest|e|] w1] eqn:G; simpl in *.
  - pose proof (FetchOne_sameTable (Version latest) "DOWNGRADE" w1) as (Hl2 & _).
    assert (Hx2 : executed (trace (snd
               (FetchUnProcessedSchemaMigrationBasedOnVersionAndType
                  (Version latest) "DOWNGRADE" w1))) = executed (trace w1)).
    { unfold FetchUnProcessedSchemaMigrationBasedOnVersionAndType, dbCall.
      destruct (faults w1) as [|[|] fs]; simpl;
        try destruct (filter _ _); reflexivity. }
    destruct (FetchUnProcessedSchemaMigrationBasedOnVersionAndType
                (Version latest) "DOWNGRADE" w1) as [[sm|e|] w2] eqn:F;
      simpl in *.
    + destruct (FetchByVersion_Ok _ _ _ _ _ F) as (Hin & Hid & Hp & Ht).
      pose proof (ApplyMigration_executes sm w2) as He.
      destruct (ApplyMigration sm w2) as [[[]|e|] w3]; simpl in *;
        unfold logError, ret; intros D; inversion D; subst w';
        (split; [intros e' He'; discriminate|]);
        right; exists latest, sm; (split; [reflexivity|]);
        (split; [rewrite <- Hl1; exact Hin|]); (split; [exact Hid|]);
        (split; [exact Hp|]); (split; [exact Ht|]);
        simpl; rewrite ?executed_app; simpl; rewrite ?app_nil_r; congruence.
    + unfold logError, ret. intros D; inversion D; subst w'.
      split; [intros e' He'; discriminate|]. left.
      simpl. rewrite executed_app. simpl. rewrite app_nil_r. congruence.
    + intros D; inversion D; subst w'.
      split; [intros e' He'; discriminate|]. left. congruence.
  - unfold logError. intros D; inversion D; subst w'. split.
    + intros e' He. inversion He; subst e'. simpl.
      rewrite Htr1, <- app_assoc. simpl. auto.
    + left. simpl. rewrite !executed_app. simpl. rewrite !app_nil_r. exact Hx1.
  - intros D; inversion D; subst w'.
    split; [intros e He; discriminate | left; exact Hx1].
Qed.


End Commands.

(* ------------------------------------------------------------------ *)
(** ** Names that the reader accepts *)

Section Names.

Lemma length_append a b :
  String.length (a ++ b) = (String.length a + String.length b)%nat.
Proof. induction a; simpl; [reflexivity | rewrite IHa; reflexivity]. Qed.

Lemma append_assoc a b c : (a ++ b) ++ c = a ++ (b ++ c).
Proof. induction a; simpl; [reflexivity | rewrite IHa; reflexivity]. Qed.

Lemma append_nil_r a : a ++ "" = a.
Proof. induction a; simpl; [reflexivity | rewrite IHa; reflexivity]. Qed.

Lemma occurs_append c a b : occurs c (a ++ b) = occurs c a || occurs c b.
Proof.
  induction a as [|d a IH]; simpl; [reflexivity|].
  rewrite IH, orb_assoc. reflexivity.
Qed.

Lemma prefix_append s b : prefix s (s ++ b) = true.
Proof.
  induction s as [|c s IH]; simpl; [destruct b; reflexivity|].
  destruct (ascii_dec c c); [exact IH | congruence].
Qed.

Lemma prefix_other c sep d s :
  Ascii.eqb c d = false -> prefix (String c sep) (String d s) = false.
Proof.
  intros H. simpl. destruct (ascii_dec c d) as [->|]; [|reflexivity].
  rewrite Ascii.eqb_refl in H. discriminate.
Qed.

(** The first occurrence of a separator lies behind a string that does not
    hold the separator's first byte. *)
Lemma index_cut c sep a b :
  occurs c a = false ->
  index 0 (String c sep) (a ++ String c sep ++ b) = Some (String.length a).
Proof.
  induction a as [|d a IH]; intros Ha.
  - change ("" ++ String c sep ++ b) with (String c (sep ++ b)).
    pose proof (prefix_append (String c sep) b) as Hp. cbn [append] in Hp.
    cbn [index]. rewrite Hp. reflexivity.
  - simpl in Ha. apply orb_false_iff in Ha. destruct Ha as (Hd & Ha).
    change (String d a ++ String c sep ++ b)
      with (String d (a ++ String c sep ++ b)).
    cbn [index]. rewrite (prefix_other _ _ _ _ Hd), (IH Ha). reflexivity.
Qed.

Lemma index_absent c sep s :
  occurs c s = false -> index 0 (String c sep) s = None.
Proof.
  induction s as [|d s IH]; intros Hs; [reflexivity|].
  simpl in Hs. apply orb_false_iff in Hs. destruct Hs as (Hd & Hs).
  cbn [index]. rewrite (prefix_other _ _ _ _ Hd), (IH Hs). reflexivity.
Qed.

Lemma substring_head a r : substring 0 (String.length a) (a ++ r) = a.
Proof.
  induction a as [|c a IH]; simpl; [destruct r; reflexivity|].
  rewrite IH. reflexivity.
Qed.

Lemma substring_all s : substring 0 (String.length s) s = s.
Proof. rewrite <- (append_nil_r s) at 2. apply substring_head. Qed.

Lemma substring_skip a n m r :
  substring (String.length a + n) m (a ++ r) = substring n m r.
Proof. induction a as [|c a IH]; simpl; [reflexivity | exact IH]. Qed.

Lemma substring_skip0 a m r :
  substring (String.length a) m (a ++ r) = substring 0 m r.
Proof.
  rewrite <- (Nat.add_0_r (String.length a)). apply substring_skip.
Qed.

(** A string without the separator is one piece. *)
Lemma Split_absent sep s : index 0 sep s = None -> Split s sep = [s].
Proof.
  intros H. unfold Split. destruct (String.length s); simpl; [reflexivity|].
  rewrite H. reflexivity.
Qed.

(** The first piece ends at the first separator, and the rest is split on
    its own. *)
Lemma Split_cut c sep a b :
  occurs c a = false ->
  Split (a ++ String c sep ++ b) (String c sep) = a :: Split b (String c sep).
Proof.
  intros Ha. unfold Split.
  assert (Hlen : String.length (a ++ String c sep ++ b)
                 = S (String.length a + String.length sep + String.length b)).
  { rewrite !length_append. cbn [String.length]. lia. }
  assert (Hrest : (String.length (a ++ String c sep ++ b)
                   - (String.length a + String.length (String c sep)))%nat
                  = String.length b).
  { rewrite Hlen. cbn [String.length]. lia. }
  rewrite Hlen at 1. cbn [genSplit].
  rewrite (index_cut c sep a b Ha), substring_head. f_equal.
  rewrite Hrest, substring_skip, substring_skip0, substring_all.
  apply genSplit_fuel; [discriminate | lia | lia].
Qed.

Lemma occurs_cut c s :
  occurs c s = true ->
  exists s1 s2, s = s1 ++ String c s2 /\ occurs c s1 = false.
Proof.
  induction s as [|d s IH]; simpl; [discriminate|].
  destruct (Ascii.eqb c d) eqn:E; simpl.
  - intros _. apply Ascii.eqb_eq in E. subst d. exists "", s. auto.
  - intros H. destruct (IH H) as (s1 & s2 & -> & H1).
    exists (String d s1), s2. simpl. rewrite E, H1. auto.
Qed.

Lemma Split_nonempty s sep : Split s sep <> [].
Proof.
  unfold Split. destruct (String.length s); simpl; [discriminate|].
  destruct (index 0 sep s); discriminate.
Qed.

Lemma last_cons (x : string) l d : l <> [] -> last (x :: l) d = last l d.
Proof. destruct l; [congruence | reflexivity]. Qed.

(** The last piece of a path is what follows its last separator. *)
Lemma last_Split_Join c name : occurs c name = false ->
  forall n dir, (String.length dir <= n)%nat ->
  last (Split (dir ++ String c "" ++ name) (String c "")) "" = name.
Proof.
  intros Hname. induction n as [|n IH]; intros dir Hlen.
  - destruct dir; [|simpl in Hlen; lia].
    rewrite (Split_cut c "" "" name eq_refl).
    rewrite (Split_absent _ _ (index_absent c "" name Hname)). reflexivity.
  - destruct (occurs c dir) eqn:E.
    + destruct (occurs_cut _ _ E) as (d1 & d2 & -> & H1).
      rewrite append_assoc.
      change (String c d2 ++ String c "" ++ name)
        with (String c "" ++ (d2 ++ String c "" ++ name)).
      rewrite (Split_cut c "" d1 _ H1), last_cons by apply Split_nonempty.
      apply IH. rewrite length_append in Hlen. simpl in Hlen. lia.
    + rewrite (Split_cut c "" dir name E).
      rewrite (Split_absent _ _ (index_absent c "" name Hname)). reflexivity.
Qed.

Lemma parseDigits_bytes c s : forall acc v,
  parseDigits s acc = Some v -> digitOf c = None -> occurs c s = false.
Proof.
  induction s as [|d s IH]; intros acc v H Hc; [reflexivity|].
  simpl in *. destruct (digitOf d) as [n|] eqn:Hd; [|discriminate].
  rewrite (IH _ _ H Hc), orb_false_r.
  destruct (Ascii.eqb c d) eqn:E; [|reflexivity].
  apply Ascii.eqb_eq in E. congruence.
Qed.

Lemma Atoi_sign a s :
  Atoi (String a s)
  = if Ascii.eqb a "-" then atoiDigits true s
    else if Ascii.eqb a "+" then atoiDigits false s
    else atoiDigits false (String a s).
Proof.
  destruct a as [[|] [|] [|] [|] [|] [|] [|] [|]]; reflexivity.
Qed.

(** What [Atoi] accepts is a sign or none, and digits. *)
Lemma Atoi_shape s v :
  Atoi s = Some v ->
  exists digits n,
    (s = digits \/ s = String "-"%char digits \/ s = String "+"%char digits)
    /\ parseDigits digits 0 = Some n.
Proof.
  assert (Hbody : forall neg digits, atoiDigits neg digits = Some v ->
                    exists n, parseDigits digits 0 = Some n).
  { intros neg digits. unfold atoiDigits.
    destruct digits; [discriminate|].
    destruct (parseDigits _ 0) as [n|]; [|discriminate].
    intros _. exists n. reflexivity. }
  destruct s as [|a s]; [discriminate|]. rewrite Atoi_sign.
  destruct (Ascii.eqb a "-") eqn:Em.
  { apply Ascii.eqb_eq in Em. subst a. intros H.
    destruct (Hbody _ _ H) as (n & P). exists s, n. auto. }
  destruct (Ascii.eqb a "+") eqn:Ep.
  { apply Ascii.eqb_eq in Ep. subst a. intros H.
    destruct (Hbody _ _ H) as (n & P). exists s, n. auto. }
  intros H. destruct (Hbody _ _ H) as (n & P). exists (String a s), n. auto.
Qed.

Lemma Atoi_bytes c s v :
  Atoi s = Some v ->
  digitOf c = None -> c <> "-"%char -> c <> "+"%char ->
  occurs c s = false.
Proof.
  intros H Hc Hm Hp.
  destruct (Atoi_shape _ _ H) as (digits & n & [->|[->| ->]] & P);
    pose proof (parseDigits_bytes c _ _ _ P Hc) as Ho; [exact Ho| |];
    simpl; rewrite Ho, orb_false_r; apply Ascii.eqb_neq; assumption.
Qed.

End Names.

Section ReadBack.

Context {X : External}.

(** X13: the reader gives back what a well-formed name says.  For a readable
    file [dir/MV__D.T.E], where [M] is any one byte other than dot, slash and
    underscore, [V] is accepted by [strconv.Atoi] with value [v], [D] holds
    neither dot nor slash nor a double underscore, [T] is [up] or [down] and
    [E] holds neither dot nor slash, and when the hash can be computed,
    [GetFileDetails] returns version [v], description [D], type UPGRADE for
    [up] and DOWNGRADE for [down], the path, the content and the salted
    hash, and consumes one salt.  Neither the marker byte nor the extension
    is compared with anything. *)
Theorem GetFileDetails_reads_back_a_well_formed_name
        w dir marker versionStr version description tag ext content
        salt rest digest :
  let stem := String marker versionStr ++ "__" ++ description in
  let filePath := dir ++ "/" ++ stem ++ "." ++ tag ++ "." ++ ext in
  ReadFile filePath w = (Ok content, w) ->
  Atoi versionStr = Some version ->
  occurs marker "./_" = false ->
  occurs "." description = false -> occurs "/" description = false ->
  index 0 "__" description = None ->
  tag = "up" \/ tag = "down" ->
  occurs "." ext = false -> occurs "/" ext = false ->
  entropy w = salt :: rest -> bcryptCore salt content = Some digest ->
  GetFileDetails filePath w
  = (Ok (mkFileDetails version description
           (if (tag =? "up")%string then "UPGRADE" else "DOWNGRADE")
           filePath content ("$2a$10$" ++ salt ++ digest)),
     setEntropy rest w).
Proof.
  intros stem filePath Hread Hatoi Hmarker Hd1 Hd2 Hd3 Htag He1 He2 Hen Hhash.
  simpl in Hmarker.
  apply orb_false_iff in Hmarker. destruct Hmarker as (Hm1 & Hmarker).
  apply orb_false_iff in Hmarker. destruct Hmarker as (Hm2 & Hmarker).
  apply orb_false_iff in Hmarker. destruct Hmarker as (Hm3 & _).
  assert (Hsym : forall a b, Ascii.eqb a b = false -> Ascii.eqb b a = false).
  { intros a b H. rewrite Ascii.eqb_sym. exact H. }
  assert (Hv : forall c, digitOf c = None -> c <> "-"%char -> c <> "+"%char ->
                         occurs c versionStr = false).
  { intros c. apply Atoi_bytes with (v := version). exact Hatoi. }
  assert (Htok : forall c, digitOf c = None -> c <> "-"%char -> c <> "+"%char ->
                           Ascii.eqb marker c = false ->
                           occurs c (String marker versionStr) = false).
  { intros c H1 H2 H3 H4. simpl. rewrite (Hsym _ _ H4), (Hv c H1 H2 H3).
    reflexivity. }
  assert (Htagd : occurs "." tag = false /\ occurs "/" tag = false).
  { destruct Htag as [-> | ->]; split; reflexivity. }
  destruct Htagd as (Ht1 & Ht2).
  assert (Hstem_dot : occurs "." stem = false).
  { unfold stem. rewrite !occurs_append.
    rewrite (Htok "."%char) by (reflexivity || discriminate || assumption).
    rewrite Hd1. reflexivity. }
  assert (Hstem_slash : occurs "/" stem = false).
  { unfold stem. rewrite !occurs_append.
    rewrite (Htok "/"%char) by (reflexivity || discriminate || assumption).
    rewrite Hd2. reflexivity. }
  assert (Hname_slash :
            occurs "/" (stem ++ "." ++ tag ++ "." ++ ext) = false).
  { rewrite !occurs_append, Hstem_slash, Ht2, He2. reflexivity. }
  assert (Hlast : last (Split filePath "/") "" = stem ++ "." ++ tag ++ "." ++ ext).
  { unfold filePath.
    apply (last_Split_Join "/" _ Hname_slash (String.length dir)). lia. }
  assert (Hdots : Split (stem ++ "." ++ tag ++ "." ++ ext) "." = [stem; tag; ext]).
  { rewrite (Split_cut "." "" stem _ Hstem_dot).
    rewrite (Split_cut "." "" tag _ Ht1).
    rewrite (Split_absent _ _ (index_absent "." "" ext He1)). reflexivity. }
  assert (Hunder : Split stem "__" = [String marker versionStr; description]).
  { unfold stem.
    rewrite (Split_cut "_" "_" (String marker versionStr) description)
      by (apply Htok; (reflexivity || discriminate || assumption)).
    rewrite (Split_absent _ _ Hd3). reflexivity. }
  unfold GetFileDetails, bind. rewrite Hread, Hlast, Hdots. simpl.
  destruct Htag as [-> | ->]; simpl; rewrite Hunder; simpl; rewrite Hatoi;
    unfold inspect, GenerateFromPassword, ret; rewrite Hen, Hhash; reflexivity.
Qed.

End ReadBack.

(* ------------------------------------------------------------------ *)
(** ** After a [reset] *)

Section Reset.

Context {X : External}.

Ltac step_apply :=
  unfold ApplyMigration, bind, inspect, timeNow, ApplySchemaMigration,
    UpdateSchemaMigration, dbCall, logError, fail, ret; simpl.

Lemma ApplyMigration_reliable sm w :
  faults w = [] ->
  faults (snd (ApplyMigration sm w)) = []
  /\ forall r, In r (ledger (snd (ApplyMigration sm w))) -> ID r = ID sm ->
               Processed r = true.
Proof.
  intros Hf. step_apply.
  destruct (Exec (target w) (FileContent sm)) as [t'|msg]; simpl;
    rewrite Hf; simpl; (split; [exact Hf|]); intros r Hin Hid;
    apply in_map_iff in Hin; destruct Hin as (r0 & Hr & Hin);
    destruct (ID r0 =? ID sm) eqn:E; subst r; try reflexivity;
    apply Z.eqb_neq in E; contradiction.
Qed.

Lemma ApplyMigration_returns sm w : fst (ApplyMigration sm w) <> Panic.
Proof.
  destruct (ApplyMigration_trace sm w) as [(w' & E & _)|(w' & line & e & E & _)];
    rewrite E; discriminate.
Qed.

Lemma revertEach_steady rows : Relates steady (revertEach rows).
Proof.
  assert (Hsame : forall w v : World,
            disk v = disk w -> ledger v = ledger w -> steady w v).
  { intros w v Hd Hl. split; [exact Hd | rewrite Hl; apply Evolves_refl]. }
  apply Relates_revertEach.
  - apply steady_refl.
  - apply steady_trans.
  - intros; apply Hsame; reflexivity.
  - intros sm w. unfold ApplySchemaMigration. simpl.
    destruct (Exec _ _); apply Hsame; reflexivity.
  - intros id et s e. apply Relates_dbCall;
      try (intros; apply Hsame; reflexivity); [apply steady_trans|].
    intros w. split; [reflexivity | apply Evolves_update].
Qed.

Lemma revertEach_reliable rows : forall w,
  faults w = [] ->
  forall r, In r (ledger (snd (revertEach rows w))) ->
            In (ID r) (map ID rows) -> Processed r = true.
Proof.
  induction rows as [|sm rest IH]; intros w Hf r; simpl; [intros _ []|].
  unfold inspect.
  destruct (ApplyMigration_reliable sm w Hf) as (Hf1 & Hmark).
  pose proof (ApplyMigration_returns sm w) as Hret.
  destruct (ApplyMigration sm w) as [[[]|e|] w1]; simpl in *.
  - intros Hin [Hid|Hid]; [|eapply IH; eassumption].
    pose proof (revertEach_steady rest w1) as (_ & He).
    destruct (Evolves_In_back _ _ _ He Hin) as (r1 & Hin1 & Hi & Hp).
    apply Hp. apply Hmark; [exact Hin1|].
    rewrite <- (identity_ID _ _ Hi). symmetry. exact Hid.
  - unfold logError. intros Hin [Hid|Hid];
      [|eapply (IH (emit _ w1)); [exact Hf1 | exact Hin | exact Hid]].
    pose proof (revertEach_steady rest (emit (EvLog "Unable to rever" e) w1))
      as (_ & He).
    destruct (Evolves_In_back _ _ _ He Hin) as (r1 & Hin1 & Hi & Hp).
    apply Hp. apply Hmark; [exact Hin1|].
    rewrite <- (identity_ID _ _ Hi). symmetry. exact Hid.
  - exfalso. apply Hret. reflexivity.
Qed.

(** X14: on a connection that does not fail, [reset] leaves no DOWNGRADE
    row outstanding, whether the batches succeeded or failed: every row it
    fetched is processed afterwards, so a second [reset] finds nothing to
    apply. *)
Theorem reset_resolves_every_downgrade w :
  faults w = [] ->
  fst (revertAll w) = Ok tt
  /\ filter (unprocessedOfType "DOWNGRADE") (ledger (snd (revertAll w))) = [].
Proof.
  intros Hf.
  destruct (revertEach_best_effort
              (orderRows "id DESC"
                 (filter (unprocessedOfType "DOWNGRADE") (ledger w))) w)
    as (w' & evs & Hrun & _).
  assert (Hall : revertAll w = (Ok tt, w')).
  { unfold revertAll, inspect, FetchUnProcessedSchemaMigrations, dbCall.
    rewrite Hf. exact Hrun. }
  rewrite Hall. simpl. split; [reflexivity|].
  pose proof (revertEach_steady
                (orderRows "id DESC"
                   (filter (unprocessedOfType "DOWNGRADE") (ledger w))) w)
    as (_ & He).
  pose proof (revertEach_reliable
                (orderRows "id DESC"
                   (filter (unprocessedOfType "DOWNGRADE") (ledger w))) w Hf)
    as Hmark.
  rewrite Hrun in He, Hmark. simpl in He, Hmark.
  destruct (filter (unprocessedOfType "DOWNGRADE") (ledger w')) as [|r l] eqn:E;
    [reflexivity|]. exfalso.
  assert (Hr : In r (filter (unprocessedOfType "DOWNGRADE") (ledger w')))
    by (rewrite E; left; reflexivity).
  apply filter_In in Hr. destruct Hr as (Hin & Hu).
  unfold unprocessedOfType in Hu. apply andb_true_iff in Hu.
  destruct Hu as (Hp & Ht). apply negb_true_iff in Hp.
  destruct (Evolves_In_back _ _ _ He Hin) as (r0 & Hin0 & Hi & Hmono).
  assert (Hp0 : Processed r0 = false).
  { destruct (Processed r0); [|reflexivity].
    rewrite (Hmono eq_refl) in Hp. discriminate. }
  assert (Hproc : Processed r = true).
  { apply Hmark; [exact Hin|].
    rewrite (identity_ID _ _ Hi). apply in_map.
    unfold orderRows. simpl.
    eapply Permutation_in; [apply Permutation_sym, sortBy_perm|].
    apply filter_In. split; [exact Hin0|]. unfold unprocessedOfType.
    rewrite Hp0, <- (identity_type _ _ Hi), Ht. reflexivity. }
  congruence.
Qed.

End Reset.

(* ------------------------------------------------------------------ *)
(** ** The further properties on the sample installation *)

(** X2 at the world that [up] leaves over a directory of two versions. *)
Lemma ids_rise_in_registration_order_witness :
  StronglySorted idBefore (ledger CoverageSample.afterOutOfOrderUp)
  /\ Forall (fun r => ID r < nextID CoverageSample.afterOutOfOrderUp)
            (ledger CoverageSample.afterOutOfOrderUp)
  /\ NoDup (map ID (ledger CoverageSample.afterOutOfOrderUp)).
Proof.
  apply (@ids_rise_in_registration_order Sample.external).
  apply (Operated_command (Sample.conf "up")).
  apply Operated_installed. reflexivity.
Defined.


(** X5 at a directory in which [V01__b.up.sql] and [V1__a.up.sql] both stand
    for version 1: the first is registered, the second is refused. *)
Lemma file_with_a_registered_key_is_refused_witness :
  (exists e, fst (AddEntryToDB "sql/V1__a.up.sql" CoverageSample.firstRegistered)
             = Err e)
  /\ ledger (snd (AddEntryToDB "sql/V1__a.up.sql" CoverageSample.firstRegistered))
     = ledger CoverageSample.firstRegistered
  /\ (hd false (faults CoverageSample.firstRegistered) = false ->
      fdVersion CoverageSample.secondDetails <> 0 ->
      fdDescription CoverageSample.secondDetails <> "" ->
      fdFileContent CoverageSample.secondDetails <> "" ->
      fst (AddEntryToDB "sql/V1__a.up.sql" CoverageSample.firstRegistered)
      = Err (ErrConstraint "idx_unique_schema_version_migration_type")).
Proof.
  apply (@file_with_a_registered_key_is_refused Sample.external
           "sql/V1__a.up.sql" CoverageSample.firstRegistered
           CoverageSample.secondDetails
           (setEntropy ["saltD"; "saltE"; "saltF"] CoverageSample.firstRegistered)
           CoverageSample.firstRow).
  - vm_compute. reflexivity.
  - vm_compute. left. reflexivity.
  - reflexivity.
  - reflexivity.
Defined.


(** X8 at the world that [up] leaves over three versions, for [down]. *)
Lemma reverting_leaves_the_current_version_witness :
  filter isUpgrade (ledger (snd (main (Sample.conf "down") CommandSample.afterUp3)))
  = filter isUpgrade (ledger CommandSample.afterUp3)
  /\ forall v v' : @World Sample.external,
       ledger v = ledger CommandSample.afterUp3 ->
       ledger v' = ledger (snd (main (Sample.conf "down") CommandSample.afterUp3)) ->
       faults v' = faults v ->
       fst (GetCurrentVersion v') = fst (GetCurrentVersion v).
Proof.
  apply (@reverting_leaves_the_current_version Sample.external).
  - apply (Operated_command (Sample.conf "up")).
    apply Operated_installed. reflexivity.
  - left. reflexivity.
Defined.

(** X9 at a directory of two versions on a fresh installation. *)
Lemma successful_up_leaves_nothing_to_apply_witness :
  filter (unprocessedOfType "UPGRADE") (ledger CoverageSample.afterGoodUp) = []
  /\ forall v : @World Sample.external,
       disk v = disk CoverageSample.afterGoodUp ->
       ledger v = ledger CoverageSample.afterGoodUp ->
       ledger (snd (syncLatestMigrations "sql" v)) = ledger v
       /\ target (snd (syncLatestMigrations "sql" v)) = target v
       /\ executed (trace (snd (syncLatestMigrations "sql" v)))
          = executed (trace v).
Proof.
  apply (@successful_up_leaves_nothing_to_apply Sample.external "sql"
           (Sample.fresh Sample.twoVersions Sample.salts)).
  vm_compute. reflexivity.
Defined.


(** X13 at [sql/V1__init.up.sql]. *)
Lemma GetFileDetails_reads_back_a_well_formed_name_witness :
  GetFileDetails "sql/V1__init.up.sql" ReaderSample.once
  = (Ok (mkFileDetails 1 "init" "UPGRADE" "sql/V1__init.up.sql"
           ReaderSample.createOrgs "$2a$10$saltACREATE TABLE orgs ()"),
     setEntropy ["saltB"; "saltC"; "saltD"; "saltE"; "saltF"] ReaderSample.once).
Proof.
  apply (@GetFileDetails_reads_back_a_well_formed_name Sample.external
           ReaderSample.once "sql" "V"%char "1" 1 "init" "up" "sql"
           ReaderSample.createOrgs "saltA"
           ["saltB"; "saltC"; "saltD"; "saltE"; "saltF"]
           ReaderSample.createOrgs);
    try reflexivity.
  left. reflexivity.
Defined.

(** X14 at three DOWNGRADE files of which the second fails. *)
Lemma reset_resolves_every_downgrade_witness :
  fst (revertAll EngineSample.registeredDown) = Ok tt
  /\ filter (unprocessedOfType "DOWNGRADE")
            (ledger (snd (revertAll EngineSample.registeredDown))) = [].
Proof.
  apply (@reset_resolves_every_downgrade Sample.external). reflexivity.
Defined.

(* ------------------------------------------------------------------ *)
(** ** What a command returns *)

Section Returns.

Context {X : External}.

Lemma GetCurrentVersion_returns w : fst (GetCurrentVersion w) <> Panic.
Proof.
  unfold GetCurrentVersion, dbCall.
  destruct (faults w) as [|[|] fs]; simpl;
    try destruct (sortBy _ _); discriminate.
Qed.

Lemma FetchOne_returns id migrationType w :
  fst (FetchUnProcessedSchemaMigrationBasedOnVersionAndType id migrationType w)
  <> Panic.
Proof.
  unfold FetchUnProcessedSchemaMigrationBasedOnVersionAndType, dbCall.
  destruct (faults w) as [|[|] fs]; simpl;
    try destruct (filter _ _); discriminate.
Qed.

Lemma Fetch_returns migrationType order w :
  fst (FetchUnProcessedSchemaMigrations migrationType order w) <> Panic.
Proof.
  unfold FetchUnProcessedSchemaMigrations, dbCall.
  destruct (faults w) as [|[|] fs]; discriminate.
Qed.

Lemma getCurrentVersion_returns w : fst (getCurrentVersion w) = Ok tt.
Proof.
  unfold getCurrentVersion, inspect.
  pose proof (GetCurrentVersion_returns w) as H.
  destruct (GetCurrentVersion w) as [[sm|e|] w1]; simpl in *;
    [reflexivity | reflexivity | contradiction].
Qed.

Lemma downgradeMigration_returns w : fst (downgradeMigration w) = Ok tt.
Proof.
  unfold downgradeMigration, inspect at 1.
  pose proof (GetCurrentVersion_returns w) as H.
  destruct (GetCurrentVersion w) as [[latest|e|] w1]; simpl in *;
    [|reflexivity | contradiction].
  unfold inspect, revertMigration, bind.
  pose proof (FetchOne_returns (Version latest) "DOWNGRADE" w1) as H1.
  destruct (FetchUnProcessedSchemaMigrationBasedOnVersionAndType _ _ w1)
    as [[sm|e|] w2]; simpl in *; [|reflexivity | contradiction].
  pose proof (ApplyMigration_returns sm w2) as H2.
  destruct (ApplyMigration sm w2) as [[[]|e|] w3]; simpl in *;
    [reflexivity | reflexivity | contradiction].
Qed.

Lemma revertAll_returns w : fst (revertAll w) = Ok tt.
Proof.
  unfold revertAll, inspect.
  pose proof (Fetch_returns "DOWNGRADE" "id DESC" w) as H.
  destruct (FetchUnProcessedSchemaMigrations "DOWNGRADE" "id DESC" w)
    as [[rows|e|] w1]; simpl in *; [| |contradiction].
  - destruct (revertEach_best_effort rows w1) as (w' & evs & E & _).
    rewrite E. reflexivity.
  - reflexivity.
Qed.


End Returns.
